(** * Lifecycle model of the N64 emulator shell (src/engine.py)

    The development embeds the two classes of [engine.py]:
    [EmulatorCore] (ROM loading, video bring-up, run loop, teardown) and
    [EmulatorGUI] (the Tk controller that starts and stops the core's
    thread and drains its message queue).

    Python objects live in a store: cores in [heap], addressed by their
    index, so that the controller and every background thread that was
    given [core.run] alias the same object.  The SDL library and the
    file system are an oracle [Env]; every foreign call is recorded in a
    chronological [trace], which is what the lifecycle properties are
    stated on. *)

From Stdlib Require Import ZArith NArith Lia List Bool Ascii String.
From stdpp Require Import base option list strings.

Local Open Scope string_scope.
Local Open Scope list_scope.

(** ** Python values used by the code *)

(** [self.window] and [self.renderer] hold [None] until [init_video]
    stores the ctypes pointer returned by SDL; such a pointer is falsy
    exactly when it is NULL. *)
Inductive pyptr :=
| PyNone
| Ptr (addr : N).

Definition truthy (p : pyptr) : bool :=
  match p with
  | PyNone => false
  | Ptr a => negb (N.eqb a 0)
  end.

(** The exceptions the code raises or catches; all derive from
    [Exception]. *)
Inductive exn :=
| RuntimeError (msg : string)
| OSError (msg : string)
| ForeignError (msg : string)
| QueueEmpty.

(** [str(e)] *)
Definition str (e : exn) : string :=
  match e with
  | RuntimeError m | OSError m | ForeignError m => m
  | QueueEmpty => EmptyString
  end.

(** Messages on the queue are the two-element tuples
    [('log', text)] and [('error', text)]. *)
Definition msg : Type := string * string.

Inductive tk_state := NORMAL | DISABLED.

Inductive log_level := INFO | ERROR.

(** ** The outside world *)

(** What reading a file in binary mode can do: [open] fails, [f.read()]
    fails, or the whole content comes back. *)
Inductive file_result :=
| OpenFails (reason : string)
| ReadFails (reason : string)
| Content (bytes : list Byte.byte).

(** Answers of the SDL library and of the file system.  Every foreign
    call advances the [clock] of the system by one; the answer of a call
    is looked up at the clock value at which it is made.

    - [ret_SDL_GetError t] is the text that formatting the value
      returned by [SDL_GetError()] inside the f-string yields;
    - pointers are addresses, [0] being NULL;
    - [pending_events t] are the types of the events that the draining
      loop of [process_input] started at time [t] receives before
      [SDL_PollEvent] answers [0];
    - [ffi_fault t] makes the foreign call made at time [t] raise. *)
Record Env := {
  ret_SDL_Init : nat -> Z;
  ret_SDL_GetError : nat -> string;
  ret_SDL_CreateWindow : nat -> N;
  ret_SDL_CreateRenderer : nat -> pyptr -> N;
  pending_events : nat -> list Z;
  ffi_fault : nat -> option string;
  read_file : nat -> string -> file_result
}.

Definition SDL_QUIT : Z := 0x100.

(** ** Objects *)

(** Fields of an [EmulatorCore] instance ([self.queue] is the
    controller's queue, the single [queue] of the system). *)
Record CoreObj := {
  running : bool;
  rom_data : option (list Byte.byte);
  window : pyptr;
  renderer : pyptr
}.

Definition set_running (b : bool) (c : CoreObj) : CoreObj :=
  {| running := b; rom_data := rom_data c;
     window := window c; renderer := renderer c |}.

Definition set_rom_data (d : option (list Byte.byte)) (c : CoreObj) : CoreObj :=
  {| running := running c; rom_data := d;
     window := window c; renderer := renderer c |}.

Definition set_window (p : pyptr) (c : CoreObj) : CoreObj :=
  {| running := running c; rom_data := rom_data c;
     window := p; renderer := renderer c |}.

Definition set_renderer (p : pyptr) (c : CoreObj) : CoreObj :=
  {| running := running c; rom_data := rom_data c;
     window := window c; renderer := p |}.

(** Fields of the [EmulatorGUI] instance that the lifecycle uses.
    [log_text] is the content of the Text widget, [log_file] the records
    handed to the [logging] module. *)
Record GuiObj := {
  emulator_thread : option nat;
  emulator_core : option nat;
  start_button : tk_state;
  stop_button : tk_state;
  log_text : string;
  log_file : list (log_level * string)
}.

(** Control points of [EmulatorCore.run]: one per statement of its
    body, the handler and the [finally] clause. *)
Inductive pc :=
| AtRunStart
| AtInitVideo
| AtLoopTest
| AtProcessInput
| AtExecuteFrame
| AtRenderFrame
| AtExcept (e : exn)
| AtFinally
| Returned (uncaught : option exn).

(** A thread created by [threading.Thread(target=core.run)]. *)
Record Thread := {
  t_core : nat;
  t_pc : pc
}.

(** ** Observations *)

Inductive actor :=
| UiThread
| Worker (tid : nat).

Inductive sdl_call :=
| Call_SDL_Init
| Call_SDL_GetError
| Call_SDL_CreateWindow
| Call_SDL_CreateRenderer (w : pyptr)
| Call_SDL_PollEvent
| Call_SDL_RenderClear (r : pyptr)
| Call_SDL_RenderPresent (r : pyptr)
| Call_SDL_DestroyRenderer (r : pyptr)
| Call_SDL_DestroyWindow (w : pyptr)
| Call_SDL_Quit.

Inductive method :=
| m_init_video
| m_process_input
| m_execute_frame
| m_render_frame
| m_shutdown.

Inductive obs :=
| OCall (c : sdl_call)
| OEnter (m : method)
| OCaught (e : exn)
| OPut (m : msg)
| OGet (m : msg).

#[global] Instance pyptr_eq_dec : EqDecision pyptr.
Proof. solve_decision. Defined.

#[global] Instance exn_eq_dec : EqDecision exn.
Proof. solve_decision. Defined.

#[global] Instance actor_eq_dec : EqDecision actor.
Proof. solve_decision. Defined.

(** ** The whole system *)

Record System := {
  gui : GuiObj;
  heap : list CoreObj;
  queue : list msg;
  threads : list Thread;
  clock : nat;
  cur : actor;
  trace : list (actor * obs)
}.

Definition set_gui (g : GuiObj) (s : System) : System :=
  {| gui := g; heap := heap s; queue := queue s; threads := threads s;
     clock := clock s; cur := cur s; trace := trace s |}.

Definition set_heap (h : list CoreObj) (s : System) : System :=
  {| gui := gui s; heap := h; queue := queue s; threads := threads s;
     clock := clock s; cur := cur s; trace := trace s |}.

Definition set_queue (q : list msg) (s : System) : System :=
  {| gui := gui s; heap := heap s; queue := q; threads := threads s;
     clock := clock s; cur := cur s; trace := trace s |}.

Definition set_threads (ts : list Thread) (s : System) : System :=
  {| gui := gui s; heap := heap s; queue := queue s; threads := ts;
     clock := clock s; cur := cur s; trace := trace s |}.

Definition set_clock (t : nat) (s : System) : System :=
  {| gui := gui s; heap := heap s; queue := queue s; threads := threads s;
     clock := t; cur := cur s; trace := trace s |}.

Definition set_cur (a : actor) (s : System) : System :=
  {| gui := gui s; heap := heap s; queue := queue s; threads := threads s;
     clock := clock s; cur := a; trace := trace s |}.

Definition set_trace (tr : list (actor * obs)) (s : System) : System :=
  {| gui := gui s; heap := heap s; queue := queue s; threads := threads s;
     clock := clock s; cur := cur s; trace := tr |}.

(** ** A state-and-exception monad for method bodies *)

Inductive outcome (A : Type) :=
| Ret (a : A)
| Raise (e : exn).
Arguments Ret {A} a.
Arguments Raise {A} e.

Definition M (A : Type) : Type := System -> outcome A * System.

Definition ret {A} (a : A) : M A := fun s => (Ret a, s).

Definition raise {A} (e : exn) : M A := fun s => (Raise e, s).

Definition bind {A B} (m : M A) (k : A -> M B) : M B := fun s =>
  match m s with
  | (Ret a, s') => k a s'
  | (Raise e, s') => (Raise e, s')
  end.

Declare Scope py_scope.
Delimit Scope py_scope with py.
Notation "x <- m ;; k" := (bind m (fun x => k))
  (at level 100, m at next level, right associativity) : py_scope.
Notation "m ;;; k" := (bind m (fun _ => k))
  (at level 100, right associativity) : py_scope.

(** [try: body except Exception as e: handler e] *)
Definition try_except {A} (body : M A) (handler : exn -> M A) : M A := fun s =>
  match body s with
  | (Ret a, s') => (Ret a, s')
  | (Raise e, s') => handler e s'
  end.

Definition get_state : M System := fun s => (Ret s, s).
Definition modify (f : System -> System) : M unit := fun s => (Ret tt, f s).

(** Appends an observation of the acting thread to the trace. *)
Definition emit (o : obs) : M unit :=
  modify (fun s => set_trace (trace s ++ [(cur s, o)]) s).

(** Attribute access on a core object of the store. *)
Definition get_core (self : nat) : M CoreObj := fun s =>
  match heap s !! self with
  | Some c => (Ret c, s)
  | None => (Raise (RuntimeError "dangling core reference"), s)
  end.

Definition update_core (self : nat) (f : CoreObj -> CoreObj) : M unit :=
  modify (fun s => set_heap (alter f self (heap s)) s).

(** [self.queue.put(m)]: the queue is unbounded, so [put] appends and
    returns. *)
Definition queue_put (m : msg) : M unit :=
  (emit (OPut m) ;;;
   modify (fun s => set_queue (queue s ++ [m]) s))%py.

(** [self.queue.get_nowait()]: removes the oldest message, or raises
    [queue.Empty]. *)
Definition queue_get_nowait : M msg := fun s =>
  match queue s with
  | [] => (Raise QueueEmpty, s)
  | m :: q =>
      (Ret m, set_trace (trace s ++ [(cur s, OGet m)]) (set_queue q s))
  end.

Section WithEnv.

Variable env : Env.

(** A foreign call: recorded, consumes one clock tick, and either raises
    or returns the oracle's answer for that tick. *)
Definition ffi {A} (c : sdl_call) (answer : nat -> A) : M A := fun s =>
  let t := clock s in
  let s' := set_clock (S t) (set_trace (trace s ++ [(cur s, OCall c)]) s) in
  match ffi_fault env t with
  | Some m => (Raise (ForeignError m), s')
  | None => (Ret (answer t), s')
  end.

End WithEnv.

(** ** [pathlib]: the final component of a path

    [Path(path).name] for the POSIX flavour: the path is cut at every
    slash, empty and [.] components are dropped, and the last remaining
    component (or the empty string) is the name. *)
Fixpoint split_slash (acc : string) (p : string) : list string :=
  match p with
  | EmptyString => [acc]
  | String c rest =>
      if Ascii.eqb c "/"%char then acc :: split_slash EmptyString rest
      else split_slash (acc +:+ String c EmptyString) rest
  end.

Definition path_parts (p : string) : list string :=
  filter (fun x => x <> EmptyString /\ x <> ".") (split_slash EmptyString p).

Definition path_name (p : string) : string :=
  List.last (path_parts p) EmptyString.

(** ** class EmulatorCore *)

Module EmulatorCore.
Section Methods.

Variable env : Env.

(** [EmulatorCore(queue)]: allocates the object; its reference is its
    index in the store. *)
Definition fresh : CoreObj :=
  {| running := false; rom_data := None; window := PyNone; renderer := PyNone |}.

Definition init : M nat := fun s =>
  (Ret (length (heap s)), set_heap (heap s ++ [fresh]) s).

Definition init_video (self : nat) : M unit :=
  (emit (OEnter m_init_video) ;;;
   rc <- ffi env Call_SDL_Init (ret_SDL_Init env) ;;
   (if negb (Z.eqb rc 0) then
      err <- ffi env Call_SDL_GetError (ret_SDL_GetError env) ;;
      raise (RuntimeError ("SDL initialization failed: " +:+ err))
    else ret tt) ;;;
   w <- ffi env Call_SDL_CreateWindow
          (fun t => Ptr (ret_SDL_CreateWindow env t)) ;;
   update_core self (set_window w) ;;;
   c <- get_core self ;;
   r <- ffi env (Call_SDL_CreateRenderer (window c))
          (fun t => Ptr (ret_SDL_CreateRenderer env t (window c))) ;;
   update_core self (set_renderer r))%py.

(** [with open(path, "rb") as f: ... f.read()] *)
Definition open_and_read (path : string) : M (list Byte.byte) := fun s =>
  let t := clock s in
  let s' := set_clock (S t) s in
  match read_file env t path with
  | OpenFails reason => (Raise (OSError reason), s')
  | ReadFails reason => (Raise (OSError reason), s')
  | Content bytes => (Ret bytes, s')
  end.

Definition load_rom (self : nat) (path : string) : M bool :=
  try_except
    (data <- open_and_read path ;;
     update_core self (set_rom_data (Some data)) ;;;
     queue_put ("log", "Loaded ROM: " +:+ path_name path) ;;;
     ret true)%py
    (fun e =>
       queue_put ("error", "ROM loading failed: " +:+ str e) ;;;
       ret false)%py.

(** The loop [while SDL_PollEvent(byref(event)): ...] over the events
    pending for this drain; the last call is the one that answers 0. *)
Fixpoint poll_loop (self : nat) (evs : list Z) : M unit :=
  match evs with
  | [] =>
      (_ <- ffi env Call_SDL_PollEvent (fun _ => 0%Z) ;; ret tt)%py
  | ty :: rest =>
      (_ <- ffi env Call_SDL_PollEvent (fun _ => 1%Z) ;;
       (if Z.eqb ty SDL_QUIT
        then update_core self (set_running false)
        else ret tt) ;;;
       poll_loop self rest)%py
  end.

Definition process_input (self : nat) : M unit :=
  (emit (OEnter m_process_input) ;;;
   s <- get_state ;;
   poll_loop self (pending_events env (clock s)))%py.

Definition execute_frame (self : nat) : M unit :=
  emit (OEnter m_execute_frame).

Definition render_frame (self : nat) : M unit :=
  (emit (OEnter m_render_frame) ;;;
   c <- get_core self ;;
   ffi env (Call_SDL_RenderClear (renderer c)) (fun _ => tt) ;;;
   c <- get_core self ;;
   ffi env (Call_SDL_RenderPresent (renderer c)) (fun _ => tt))%py.

Definition shutdown (self : nat) : M unit :=
  (emit (OEnter m_shutdown) ;;;
   c <- get_core self ;;
   (if truthy (renderer c)
    then ffi env (Call_SDL_DestroyRenderer (renderer c)) (fun _ => tt)
    else ret tt) ;;;
   c <- get_core self ;;
   (if truthy (window c)
    then ffi env (Call_SDL_DestroyWindow (window c)) (fun _ => tt)
    else ret tt) ;;;
   ffi env Call_SDL_Quit (fun _ => tt))%py.

(** A statement of the [try] block of [run]: on an exception control
    moves to the [except Exception as e] handler. *)
Definition guarded (m : M unit) (next : pc) (s : System) : pc * System :=
  match m s with
  | (Ret _, s') => (next, s')
  | (Raise e, s') => (AtExcept e, snd (emit (OCaught e) s'))
  end.

(** One statement of [run], from control point [p]. *)
Definition run_step (self : nat) (p : pc) (s : System) : pc * System :=
  match p with
  | AtRunStart =>
      (AtInitVideo, snd (update_core self (set_running true) s))
  | AtInitVideo => guarded (init_video self) AtLoopTest s
  | AtLoopTest =>
      match get_core self s with
      | (Ret c, s') =>
          (if running c then AtProcessInput else AtFinally, s')
      | (Raise e, s') => (AtExcept e, snd (emit (OCaught e) s'))
      end
  | AtProcessInput => guarded (process_input self) AtExecuteFrame s
  | AtExecuteFrame => guarded (execute_frame self) AtRenderFrame s
  | AtRenderFrame => guarded (render_frame self) AtLoopTest s
  | AtExcept e =>
      (AtFinally, snd (queue_put ("error", str e) s))
  | AtFinally =>
      match shutdown self s with
      | (Ret _, s') => (Returned None, s')
      | (Raise e, s') => (Returned (Some e), s')
      end
  | Returned r => (Returned r, s)
  end.

(** [run()] executed without interference: statements are taken one
    after the other until the method returns; [None] when [fuel]
    statements were not enough. *)
Fixpoint run_from (fuel : nat) (self : nat) (p : pc) (s : System)
  : option (option exn * System) :=
  match p with
  | Returned r => Some (r, s)
  | _ =>
      match fuel with
      | 0 => None
      | S fuel' =>
          let (p', s') := run_step self p s in
          run_from fuel' self p' s'
      end
  end.

Definition run (fuel : nat) (self : nat) (s : System)
  : option (option exn * System) :=
  run_from fuel self AtRunStart s.

End Methods.
End EmulatorCore.

(** ** class EmulatorGUI *)

Definition set_emulator_thread (t : option nat) (g : GuiObj) : GuiObj :=
  {| emulator_thread := t; emulator_core := emulator_core g;
     start_button := start_button g; stop_button := stop_button g;
     log_text := log_text g; log_file := log_file g |}.

Definition set_emulator_core (c : option nat) (g : GuiObj) : GuiObj :=
  {| emulator_thread := emulator_thread g; emulator_core := c;
     start_button := start_button g; stop_button := stop_button g;
     log_text := log_text g; log_file := log_file g |}.

Definition set_start_button (b : tk_state) (g : GuiObj) : GuiObj :=
  {| emulator_thread := emulator_thread g; emulator_core := emulator_core g;
     start_button := b; stop_button := stop_button g;
     log_text := log_text g; log_file := log_file g |}.

Definition set_stop_button (b : tk_state) (g : GuiObj) : GuiObj :=
  {| emulator_thread := emulator_thread g; emulator_core := emulator_core g;
     start_button := start_button g; stop_button := b;
     log_text := log_text g; log_file := log_file g |}.

Definition set_log_text (t : string) (g : GuiObj) : GuiObj :=
  {| emulator_thread := emulator_thread g; emulator_core := emulator_core g;
     start_button := start_button g; stop_button := stop_button g;
     log_text := t; log_file := log_file g |}.

Definition set_log_file (l : list (log_level * string)) (g : GuiObj) : GuiObj :=
  {| emulator_thread := emulator_thread g; emulator_core := emulator_core g;
     start_button := start_button g; stop_button := stop_button g;
     log_text := log_text g; log_file := l |}.

Definition newline : string := String (ascii_of_nat 10) EmptyString.

Module EmulatorGUI.
Section Methods.

Variable env : Env.

(** The controller after [__init__]: no thread, no core, both buttons
    created with [state=tk.DISABLED], an empty log. *)
Definition initial : GuiObj :=
  {| emulator_thread := None; emulator_core := None;
     start_button := DISABLED; stop_button := DISABLED;
     log_text := EmptyString; log_file := [] |}.

Definition update_gui (f : GuiObj -> GuiObj) : M unit :=
  modify (fun s => set_gui (f (gui s)) s).

Definition log (message : string) (error : bool) : M unit :=
  (update_gui (fun g => set_log_text (log_text g +:+ message +:+ newline) g) ;;;
   update_gui (fun g =>
     set_log_file (log_file g ++ [(if error then ERROR else INFO, message)]) g))%py.

(** The body of the [try] in [check_queue], after a message was taken. *)
Definition handle_message (m : msg) : M unit :=
  let (msg_type, content) := m in
  if String.eqb msg_type "log" then log ("[INFO] " +:+ content) false
  else if String.eqb msg_type "error" then log ("[ERROR] " +:+ content) true
  else ret tt.

(** [check_queue]: [while True] with [break] on [queue.Empty].  [None]
    when [fuel] iterations were not enough. *)
Fixpoint check_queue (fuel : nat) (s : System) : option System :=
  match fuel with
  | 0 => None
  | S fuel' =>
      match queue_get_nowait s with
      | (Ret m, s') => check_queue fuel' (snd (handle_message m s'))
      | (Raise _, s') => Some s'
      end
  end.

(** [load_rom], given the answer of the file dialog (the empty string
    when the dialog was cancelled). *)
Definition load_rom (path : string) : M unit :=
  if negb (String.eqb path EmptyString) then
    (c <- EmulatorCore.init ;;
     update_gui (set_emulator_core (Some c)) ;;;
     ok <- EmulatorCore.load_rom env c path ;;
     if ok : bool then
       (update_gui (set_start_button NORMAL) ;;;
        update_gui (set_stop_button DISABLED))
     else ret tt)%py
  else ret tt.

(** [threading.Thread(target=core.run, daemon=True)] followed by
    [.start()]: a new thread about to execute the first statement of
    [run] on that core. *)
Definition thread_start (core : nat) : M nat := fun s =>
  (Ret (length (threads s)),
   set_threads (threads s ++ [{| t_core := core; t_pc := AtRunStart |}]) s).

Definition start_emulation : M unit :=
  (s <- get_state ;;
   match emulator_core (gui s) with
   | Some c =>
       t <- thread_start c ;;
       update_gui (set_emulator_thread (Some t)) ;;;
       update_gui (set_start_button DISABLED) ;;;
       update_gui (set_stop_button NORMAL) ;;;
       log "Emulation started" false
   | None => ret tt
   end)%py.

Definition stop_emulation : M unit :=
  (s <- get_state ;;
   match emulator_core (gui s) with
   | Some c =>
       update_core c (set_running false) ;;;
       update_gui (set_start_button NORMAL) ;;;
       update_gui (set_stop_button DISABLED) ;;;
       log "Emulation stopped" false
   | None => ret tt
   end)%py.

End Methods.
End EmulatorGUI.

(** ** The running program

    The Tk main loop delivers button clicks and timer ticks to the
    controller on the UI thread; the threads started by the controller
    advance one statement of [run] at a time, in any order; a statement
    that calls a method runs that method to its end within the step.  A
    click on a button whose state is [DISABLED] does not invoke its
    command. *)

Inductive action :=
| ClickLoad (answer : string)
| ClickStart
| ClickStop
| TimerTick
| Step (tid : nat).

Section Program.

Variable env : Env.

Definition boot : System :=
  {| gui := EmulatorGUI.initial; heap := []; queue := []; threads := [];
     clock := 0; cur := UiThread; trace := [] |}.

Definition on_ui (m : M unit) (s : System) : System :=
  snd (m (set_cur UiThread s)).

Definition step_thread (tid : nat) (s : System) : System :=
  match threads s !! tid with
  | Some th =>
      let (p', s') :=
        EmulatorCore.run_step env (t_core th) (t_pc th) (set_cur (Worker tid) s) in
      set_threads (<[tid := {| t_core := t_core th; t_pc := p' |}]> (threads s')) s'
  | None => s
  end.

Definition dispatch (a : action) (s : System) : System :=
  match a with
  | ClickLoad answer => on_ui (EmulatorGUI.load_rom env answer) s
  | ClickStart =>
      match start_button (gui s) with
      | NORMAL => on_ui EmulatorGUI.start_emulation s
      | DISABLED => s
      end
  | ClickStop =>
      match stop_button (gui s) with
      | NORMAL => on_ui EmulatorGUI.stop_emulation s
      | DISABLED => s
      end
  | TimerTick =>
      match EmulatorGUI.check_queue (S (length (queue s))) (set_cur UiThread s) with
      | Some s' => s'
      | None => s
      end
  | Step tid => step_thread tid s
  end.

Definition exec (sched : list action) (s : System) : System :=
  fold_left (fun s a => dispatch a s) sched s.

End Program.

(** ** Reading the trace *)

Definition by_actor (a : actor) (tr : list (actor * obs)) : list obs :=
  map snd (filter (fun x => fst x = a) tr).

Definition is_shutdown (o : obs) : bool :=
  match o with OEnter m_shutdown => true | _ => false end.

Definition is_put (o : obs) : bool :=
  match o with OPut _ => true | _ => false end.

Definition is_caught (o : obs) : bool :=
  match o with OCaught _ => true | _ => false end.

Definition count (f : obs -> bool) (l : list obs) : nat :=
  length (List.filter f l).

(** * Specification vocabulary

    The definitions below are not part of the program: they name what
    the properties of the lifecycle are stated with. *)

(** ** Files and the active ROM *)

(** The reason of a failed read, if the read failed. *)
Definition failure_reason (r : file_result) : option string :=
  match r with
  | OpenFails m | ReadFails m => Some m
  | Content _ => None
  end.

(** The ROM bytes of the core the controller currently holds. *)
Definition active_rom (s : System) : option (list Byte.byte) :=
  match emulator_core (gui s) with
  | Some c => match heap s !! c with Some o => rom_data o | None => None end
  | None => None
  end.

(** ** Shapes of traces *)

(** The foreign calls that give a resource back to SDL. *)
Definition is_release_call (c : sdl_call) : bool :=
  match c with
  | Call_SDL_DestroyRenderer _ | Call_SDL_DestroyWindow _ | Call_SDL_Quit => true
  | _ => false
  end.

(** Observations of the [try] body of [run]: method entries other than
    [shutdown] and foreign calls that release nothing. *)
Definition body_obs (o : obs) : bool :=
  match o with
  | OCall c => negb (is_release_call c)
  | OEnter m => match m with m_shutdown => false | _ => true end
  | _ => false
  end.

(** Observations of [shutdown] after its entry: releases only. *)
Definition release_obs (o : obs) : bool :=
  match o with
  | OCall c => is_release_call c
  | _ => false
  end.

(** [emits Q m]: the method body [m] keeps the acting thread and the
    threads, and appends to the trace only observations of the acting
    thread that satisfy [Q]. *)
Definition emits {A} (Q : obs -> bool) (m : M A) : Prop :=
  forall s,
    cur (snd (m s)) = cur s /\
    threads (snd (m s)) = threads s /\
    exists l, trace (snd (m s)) = trace s ++ map (pair (cur s)) l /\
              forallb Q l = true.

(** The control points inside the [try] block of [run]. *)
Definition in_try (p : pc) : bool :=
  match p with
  | AtRunStart | AtInitVideo | AtLoopTest
  | AtProcessInput | AtExecuteFrame | AtRenderFrame => true
  | _ => false
  end.

(** What one statement of [run] may do: where control goes, and what it
    appends to the trace of its thread. *)
Inductive step_shape : pc -> pc -> list obs -> Prop :=
| shape_try p p' l :
    in_try p = true -> in_try p' = true \/ p' = AtFinally ->
    forallb body_obs l = true ->
    step_shape p p' l
| shape_raise p e l :
    in_try p = true -> forallb body_obs l = true ->
    step_shape p (AtExcept e) (l ++ [OCaught e])
| shape_handler e :
    step_shape (AtExcept e) AtFinally [OPut ("error", str e)]
| shape_finally r rel :
    forallb release_obs rel = true ->
    step_shape AtFinally (Returned r) (OEnter m_shutdown :: rel)
| shape_returned r :
    step_shape (Returned r) (Returned r) [].

Definition step_frame (p : pc) (s : System) (r : pc * System) : Prop :=
  cur (snd r) = cur s /\ threads (snd r) = threads s /\
  exists l, trace (snd r) = trace s ++ map (pair (cur s)) l /\
            step_shape p (fst r) l.

(** What the handler of [run] adds: nothing, or the caught exception
    turned into one error message. *)
Inductive handled : list obs -> Prop :=
| handled_none : handled []
| handled_error e : handled [OCaught e; OPut ("error", str e)].

(** What a thread has observed so far, by the control point it is at. *)
Inductive run_inv : pc -> list obs -> Prop :=
| inv_try p body :
    in_try p = true -> forallb body_obs body = true ->
    run_inv p body
| inv_except e body :
    forallb body_obs body = true ->
    run_inv (AtExcept e) (body ++ [OCaught e])
| inv_finally body h :
    forallb body_obs body = true -> handled h ->
    run_inv AtFinally (body ++ h)
| inv_returned r body h rel :
    forallb body_obs body = true -> handled h ->
    forallb release_obs rel = true ->
    run_inv (Returned r) (body ++ h ++ OEnter m_shutdown :: rel).

(** Every thread satisfies [run_inv], and no observation is attributed
    to a thread that does not exist yet. *)
Definition threads_ok (s : System) : Prop :=
  (forall tid th, threads s !! tid = Some th ->
     run_inv (t_pc th) (by_actor (Worker tid) (trace s))) /\
  (forall tid, length (threads s) <= tid ->
     by_actor (Worker tid) (trace s) = []).

(** The footprint of a callback of the controller: it adds observations
    of its own thread, and can only add threads that have not started. *)
Definition ui_frame (s s' : System) : Prop :=
  exists l new,
    trace s' = trace s ++ map (pair UiThread) l /\
    threads s' = threads s ++ new /\
    Forall (fun th => t_pc th = AtRunStart) new.

Definition any_obs (o : obs) : bool := true.

(** ** The event channel *)

(** [put] applied to each message in turn. *)
Definition put_all (ms : list msg) (s : System) : System :=
  fold_left (fun s m => snd (queue_put m s)) ms s.

(** The records that [check_queue] hands to [log] for one message. *)
Definition rendered (m : msg) : list (log_level * string) :=
  if String.eqb (fst m) "log" then [(INFO, "[INFO] " +:+ snd m)]
  else if String.eqb (fst m) "error" then [(ERROR, "[ERROR] " +:+ snd m)]
  else [].

(** The messages put, and the messages taken, in trace order. *)
Definition msgs_put (tr : list (actor * obs)) : list msg :=
  flat_map (fun x => match snd x with OPut m => [m] | _ => [] end) tr.

Definition msgs_got (tr : list (actor * obs)) : list msg :=
  flat_map (fun x => match snd x with OGet m => [m] | _ => [] end) tr.

(** Everything that was put was taken, in the same order, or is still
    queued. *)
Definition fifo (s : System) : Prop :=
  msgs_put (trace s) = msgs_got (trace s) ++ queue s.

(** [keeps I m]: the method body [m] preserves the property [I]. *)
Definition keeps {A} (I : System -> Prop) (m : M A) : Prop :=
  forall s, I s -> I (snd (m s)).

(** ** The controller's view *)

(** Two states that differ at most in the clock, the acting thread and
    the trace: nothing a user or a thread can observe was changed. *)
Definition unchanged (s s' : System) : Prop :=
  gui s' = gui s /\ heap s' = heap s /\ queue s' = queue s /\
  threads s' = threads s.

(** A thread whose [run] has not returned. *)
Definition live (th : Thread) : bool :=
  match t_pc th with
  | Returned _ => false
  | _ => true
  end.

(** A thread inside the [while] loop of [run]. *)
Definition in_loop (th : Thread) : bool :=
  match t_pc th with
  | AtLoopTest | AtProcessInput | AtExecuteFrame | AtRenderFrame => true
  | _ => false
  end.

(** Number of threads that are inside the loop of [run] on core [c]. *)
Definition loops_on (c : nat) (s : System) : nat :=
  length (List.filter (fun th => Nat.eqb (t_core th) c && in_loop th) (threads s)).

(** The releases [shutdown] issues for a core, in order. *)
Definition releases (c : CoreObj) : list obs :=
  (if truthy (renderer c) then [OCall (Call_SDL_DestroyRenderer (renderer c))] else [])
  ++ (if truthy (window c) then [OCall (Call_SDL_DestroyWindow (window c))] else [])
  ++ [OCall Call_SDL_Quit].

(** No foreign call made at a time in [[t, t + n)] raises. *)
Definition no_fault (env : Env) (t n : nat) : Prop :=
  forall k, k < n -> ffi_fault env (k + t) = None.

(** The handles handed to [SDL_DestroyRenderer] and [SDL_DestroyWindow]
    so far, in order. *)
Definition handle_releases (tr : list (actor * obs)) : list obs :=
  List.filter
    (fun o => match o with
              | OCall (Call_SDL_DestroyRenderer _)
              | OCall (Call_SDL_DestroyWindow _) => true
              | _ => false
              end)
    (map snd tr).

(** The specification's reading of a repeated [shutdown]: the second
    call releases no handle. *)
Definition second_shutdown_is_noop (env : Env) (self : nat) (s : System) : Prop :=
  let s1 := snd (EmulatorCore.shutdown env self s) in
  let s2 := snd (EmulatorCore.shutdown env self s1) in
  handle_releases (trace s2) = handle_releases (trace s1).

(** The handles of a core are both usable or both absent. *)
Definition video_handle_ok (c : CoreObj) : Prop :=
  truthy (window c) = truthy (renderer c).

(** The specification's reading of [start]: with no ROM in the active
    core, [start_emulation] changes nothing. *)
Definition start_refuses_without_rom (s : System) : Prop :=
  active_rom s = None ->
  unchanged s (on_ui EmulatorGUI.start_emulation s).

(** The specification's "at most one loop at a time", per core. *)
Definition single_loop (s : System) : Prop :=
  forall c, loops_on c s <= 1.

(** The specification's reading of [stop]: with no thread alive,
    [stop_emulation] changes nothing. *)
Definition stop_refuses_without_loop (s : System) : Prop :=
  forallb (fun th => negb (live th)) (threads s) = true ->
  unchanged s (on_ui EmulatorGUI.stop_emulation s).

(** The method called by a statement of the [try] block of [run], for
    the control points that call one: [self.init_video()] and the three
    calls of the loop body. *)
Definition try_call (env : Env) (self : nat) (p : pc) : option (M unit) :=
  match p with
  | AtInitVideo => Some (EmulatorCore.init_video env self)
  | AtProcessInput => Some (EmulatorCore.process_input env self)
  | AtExecuteFrame => Some (EmulatorCore.execute_frame self)
  | AtRenderFrame => Some (EmulatorCore.render_frame env self)
  | _ => None
  end.

(** ** Sample worlds and schedules *)

Definition rom_bytes : list Byte.byte :=
  [Byte.x80; Byte.x37; Byte.x12; Byte.x40].

Definition rom_path : string := "/roms/test.z64".

Definition sample_env (init_rc : Z) (win rend : N)
    (events : nat -> list Z) (fault : nat -> option string) : Env :=
  {| ret_SDL_Init := fun _ => init_rc;
     ret_SDL_GetError := fun _ => "No available video device";
     ret_SDL_CreateWindow := fun _ => win;
     ret_SDL_CreateRenderer := fun _ _ => rend;
     pending_events := events;
     ffi_fault := fault;
     read_file := fun _ p =>
       if String.eqb p rom_path then Content rom_bytes
       else OpenFails "[Errno 2] No such file or directory" |}.

(** Video comes up and no event ever arrives. *)
Definition env_play : Env :=
  sample_env 0 1 2 (fun _ => []) (fun _ => None).

(** Video comes up; the window is closed once the clock has reached 8. *)
Definition env_quit : Env :=
  sample_env 0 1 2 (fun t => if Nat.leb 8 t then [SDL_QUIT] else []) (fun _ => None).

(** [SDL_Init] fails. *)
Definition env_no_video : Env :=
  sample_env (-1) 1 2 (fun _ => []) (fun _ => None).

(** The foreign call made at time 6 raises. *)
Definition env_fault : Env :=
  sample_env 0 1 2 (fun _ => [])
    (fun t => if Nat.eqb t 6 then Some "access violation" else None).

(** The window is created but the renderer is not. *)
Definition env_no_renderer : Env :=
  sample_env 0 1 0 (fun _ => []) (fun _ => None).

(** Video comes up the first time; [SDL_Init] fails from time 8 on. *)
Definition env_second_init_fails : Env :=
  {| ret_SDL_Init := fun t => if Nat.leb 8 t then (-1)%Z else 0%Z;
     ret_SDL_GetError := fun _ => "No available video device";
     ret_SDL_CreateWindow := fun _ => 1%N;
     ret_SDL_CreateRenderer := fun _ _ => 2%N;
     pending_events := fun _ => [];
     ffi_fault := fun _ => None;
     read_file := fun _ _ => Content rom_bytes |}.

Definition steps (tid n : nat) : list action := repeat (Step tid) n.

(** The program after the sample ROM was loaded. *)
Definition loaded : System := exec env_play [ClickLoad rom_path] boot.

(** ... and after the video of its core came up in a first run. *)
Definition video_up : System :=
  exec env_play ([ClickLoad rom_path; ClickStart] ++ steps 0 2) boot.

Definition missing_path : string := "/roms/missing.z64".

(** ** Frames and invariants of whole executions *)

(** The tags [check_queue] knows. *)
Definition tag_ok (m : msg) : bool :=
  String.eqb (fst m) "log" || String.eqb (fst m) "error".

(** What a statement of [run] may change: it leaves the controller, the
    threads, the number of cores and the ROM of every core alone, and
    can only append known-tag messages to the queue. *)
Definition core_step (s s' : System) : Prop :=
  gui s' = gui s /\
  threads s' = threads s /\
  length (heap s') = length (heap s) /\
  (forall c, rom_data <$> heap s' !! c = rom_data <$> heap s !! c) /\
  exists q, queue s' = queue s ++ q /\ forallb tag_ok q = true.

(** [changes R m]: the effect of the method body [m] on the state is
    within the relation [R]. *)
Definition changes {A} (R : System -> System -> Prop) (m : M A) : Prop :=
  forall s, R s (snd (m s)).

(** The content of the Text widget that corresponds to a list of log
    records: each message followed by a newline. *)
Definition text_of (l : list (log_level * string)) : string :=
  fold_left (fun t r => t +:+ snd r +:+ newline) l EmptyString.

(** The thread the controller remembers, given the threads started. *)
Definition last_started (ts : list Thread) : option nat :=
  match ts with
  | [] => None
  | _ :: _ => Some (length ts - 1)
  end.

(** What holds of the controller in every state the program reaches. *)
Definition sys_ok (s : System) : Prop :=
  (start_button (gui s) = DISABLED \/ stop_button (gui s) = DISABLED) /\
  (start_button (gui s) = NORMAL \/ stop_button (gui s) = NORMAL ->
     is_Some (emulator_core (gui s))) /\
  (stop_button (gui s) = NORMAL -> threads s <> []) /\
  (forall c, emulator_core (gui s) = Some c -> c < length (heap s)) /\
  Forall (fun th => t_core th < length (heap s)) (threads s) /\
  emulator_thread (gui s) = last_started (threads s) /\
  forallb tag_ok (queue s) = true /\
  log_text (gui s) = text_of (log_file (gui s)).

(** Whether [SDL_QUIT] is among the events of a drain. *)
Definition quit_requested (evs : list Z) : bool :=
  existsb (fun ty => Z.eqb ty SDL_QUIT) evs.

(** The sample program right after Start: its thread has not executed a
    statement yet. *)
Definition started : System :=
  exec env_play [ClickLoad rom_path; ClickStart] boot.

(** The sample program when its window is being closed: the thread is
    about to call [process_input] and [SDL_QUIT] is pending. *)
Definition closing : System :=
  exec env_quit ([ClickLoad rom_path; ClickStart] ++ steps 0 11) boot.

(** The sample core before and after its video came up. *)
Definition core_loaded : CoreObj :=
  {| running := false; rom_data := Some rom_bytes;
     window := PyNone; renderer := PyNone |}.

Definition core_playing : CoreObj :=
  {| running := true; rom_data := Some rom_bytes;
     window := Ptr 1; renderer := Ptr 2 |}.

(** The sample program when a foreign call is about to raise: the
    thread is about to call [render_frame], whose second call is the one
    made at time 6. *)
Definition faulting : System :=
  exec env_fault ([ClickLoad rom_path; ClickStart] ++ steps 0 5) boot.

(** [log_grows s s']: from [s] to [s'] the log only grew, and the text
    appended to the widget is the text of the records appended to the
    log file. *)
Definition log_grows (s s' : System) : Prop :=
  exists recs,
    log_file (gui s') = log_file (gui s) ++ recs /\
    log_text (gui s') = log_text (gui s) +:+ text_of recs.

(** * Properties of the lifecycle *)

(** ** What [load_rom] does, and the name it logs *)

Lemma load_rom_failure env s self path reason :
  failure_reason (read_file env (clock s) path) = Some reason ->
  exists s',
    EmulatorCore.load_rom env self path s = (Ret false, s') /\
    heap s' = heap s /\
    queue s' = queue s ++ [("error", "ROM loading failed: " +:+ reason)] /\
    trace s' = trace s ++ [(cur s, OPut ("error", "ROM loading failed: " +:+ reason))] /\
    gui s' = gui s /\ threads s' = threads s /\ cur s' = cur s /\
    clock s' = S (clock s).
Proof.
  intros Hf. unfold EmulatorCore.load_rom, try_except, bind, EmulatorCore.open_and_read.
  destruct (read_file env (clock s) path) as [m|m|b]; simpl in Hf; inversion Hf; subst;
    eexists; (split; [reflexivity|]); simpl; repeat split; reflexivity.
Qed.

Lemma load_rom_success env s self path B :
  read_file env (clock s) path = Content B ->
  exists s',
    EmulatorCore.load_rom env self path s = (Ret true, s') /\
    heap s' = alter (set_rom_data (Some B)) self (heap s) /\
    queue s' = queue s ++ [("log", "Loaded ROM: " +:+ path_name path)] /\
    trace s' = trace s ++ [(cur s, OPut ("log", "Loaded ROM: " +:+ path_name path))] /\
    gui s' = gui s /\ threads s' = threads s /\ cur s' = cur s /\
    clock s' = S (clock s).
Proof.
  intros Hf. unfold EmulatorCore.load_rom, try_except, bind, EmulatorCore.open_and_read.
  rewrite Hf. eexists; (split; [reflexivity|]); simpl; repeat split; reflexivity.
Qed.

Lemma append_empty_r (a : string) : a +:+ EmptyString = a.
Proof.
  induction a as [|c a IH]; [reflexivity|].
  change (String c (a +:+ EmptyString) = String c a). by rewrite IH.
Qed.

Lemma append_snoc (a : string) c b :
  (a +:+ String c EmptyString) +:+ b = a +:+ String c b.
Proof.
  induction a as [|d a IH]; [reflexivity|].
  change (String d ((a +:+ String c EmptyString) +:+ b) = String d (a +:+ String c b)).
  by rewrite IH.
Qed.

Lemma split_slash_no_slash name : forall acc,
  (forall c, c ∈ list_ascii_of_string name -> c <> "/"%char) ->
  split_slash acc name = [acc +:+ name].
Proof.
  induction name as [|c name IH]; intros acc H; simpl.
  - by rewrite append_empty_r.
  - destruct (Ascii.eqb_spec c "/"%char) as [->|Hne].
    + exfalso. apply (H "/"%char); [simpl; left | reflexivity].
    + rewrite IH.
      * by rewrite append_snoc.
      * intros c' Hc'. apply H. simpl. right. exact Hc'.
Qed.

Lemma split_slash_app dir rest : forall acc,
  split_slash acc (dir +:+ String "/"%char rest)
  = split_slash acc dir ++ split_slash EmptyString rest.
Proof.
  induction dir as [|c dir IH]; intros acc; simpl.
  - reflexivity.
  - destruct (Ascii.eqb c "/"%char); simpl; by rewrite IH.
Qed.

Lemma path_name_basename dir name :
  (forall c, c ∈ list_ascii_of_string name -> c <> "/"%char) ->
  name <> EmptyString -> name <> "." ->
  path_name (dir +:+ String "/"%char name) = name.
Proof.
  intros Hns Hne Hdot. unfold path_name, path_parts.
  rewrite split_slash_app, filter_app, (split_slash_no_slash name) by exact Hns.
  simpl. rewrite filter_cons_True by (split; assumption).
  rewrite filter_nil. apply List.last_last.
Qed.

(** ** What a method body appends to the trace *)

Lemma emits_ret {A} Q (a : A) : emits Q (ret a).
Proof. intros s. simpl. repeat split. exists []. by rewrite app_nil_r. Qed.

Lemma emits_raise {A} Q e : emits Q (@raise A e).
Proof. intros s. simpl. repeat split. exists []. by rewrite app_nil_r. Qed.

Lemma emits_bind {A B} Q (m : M A) (k : A -> M B) :
  emits Q m -> (forall a, emits Q (k a)) -> emits Q (bind m k).
Proof.
  intros Hm Hk s. unfold bind.
  destruct (Hm s) as (Hc & Ht & l & Hl & HQ).
  destruct (m s) as [[a|e] s1]; simpl in *.
  - destruct (Hk a s1) as (Hc2 & Ht2 & l2 & Hl2 & HQ2).
    split; [congruence|]. split; [congruence|].
    exists (l ++ l2). rewrite Hl2, Hl, Hc, map_app, app_assoc.
    split; [reflexivity|]. rewrite forallb_app. by rewrite HQ, HQ2.
  - repeat split; try assumption. by exists l.
Qed.

Lemma emits_get_state Q : emits Q get_state.
Proof. intros s. simpl. repeat split. exists []. by rewrite app_nil_r. Qed.

Lemma emits_modify Q f :
  (forall s, cur (f s) = cur s /\ threads (f s) = threads s /\ trace (f s) = trace s) ->
  emits Q (modify f).
Proof.
  intros H s. simpl. destruct (H s) as (? & ? & Htr). repeat split; try assumption.
  exists []. by rewrite app_nil_r.
Qed.

Lemma emits_emit Q o : Q o = true -> emits Q (emit o).
Proof.
  intros H s. simpl. repeat split. exists [o]. simpl. by rewrite H.
Qed.

Lemma emits_get_core Q self : emits Q (get_core self).
Proof.
  intros s. unfold get_core. destruct (heap s !! self); simpl;
    repeat split; exists []; by rewrite app_nil_r.
Qed.

Lemma emits_update_core Q self f : emits Q (update_core self f).
Proof. apply emits_modify. intros s. by repeat split. Qed.

Lemma emits_queue_put Q m : Q (OPut m) = true -> emits Q (queue_put m).
Proof.
  intros H. unfold queue_put. apply emits_bind; [by apply emits_emit|].
  intros _. apply emits_modify. intros s. by repeat split.
Qed.

Lemma emits_ffi {A} env Q c (answer : nat -> A) :
  Q (OCall c) = true -> emits Q (ffi env c answer).
Proof.
  intros H s. unfold ffi.
  destruct (ffi_fault env (clock s)); simpl; repeat split;
    exists [OCall c]; simpl; by rewrite H.
Qed.

Lemma emits_weaken {A} (Q Q' : obs -> bool) (m : M A) :
  (forall o, Q o = true -> Q' o = true) -> emits Q m -> emits Q' m.
Proof.
  intros HQ Hm s. destruct (Hm s) as (? & ? & l & Hl & Hf).
  repeat split; try assumption. exists l. split; [assumption|].
  rewrite forallb_forall in *. auto.
Qed.

Ltac emits_tac :=
  repeat first
    [ apply emits_ret | apply emits_raise | apply emits_get_state
    | apply emits_get_core | apply emits_update_core
    | (apply emits_emit; reflexivity)
    | (apply emits_ffi; reflexivity)
    | (apply emits_queue_put; reflexivity)
    | (apply emits_bind; [|intros ?])
    | match goal with |- emits _ (if ?b then _ else _) => destruct b end ].

Lemma emits_init_video env self : emits body_obs (EmulatorCore.init_video env self).
Proof. unfold EmulatorCore.init_video. emits_tac. Qed.

Lemma emits_poll_loop env self evs : emits body_obs (EmulatorCore.poll_loop env self evs).
Proof. induction evs as [|ty evs IH]; simpl; emits_tac. exact IH. Qed.

Lemma emits_process_input env self : emits body_obs (EmulatorCore.process_input env self).
Proof. unfold EmulatorCore.process_input. emits_tac. apply emits_poll_loop. Qed.

Lemma emits_execute_frame self : emits body_obs (EmulatorCore.execute_frame self).
Proof. unfold EmulatorCore.execute_frame. emits_tac. Qed.

Lemma emits_render_frame env self : emits body_obs (EmulatorCore.render_frame env self).
Proof. unfold EmulatorCore.render_frame. emits_tac. Qed.

Lemma bind_emit {B} o (k : unit -> M B) s :
  bind (emit o) k s = k tt (set_trace (trace s ++ [(cur s, o)]) s).
Proof. reflexivity. Qed.

Lemma shutdown_shape env self s :
  let s' := snd (EmulatorCore.shutdown env self s) in
  cur s' = cur s /\ threads s' = threads s /\
  exists rel, trace s' = trace s ++ map (pair (cur s)) (OEnter m_shutdown :: rel) /\
              forallb release_obs rel = true.
Proof.
  unfold EmulatorCore.shutdown.
  match goal with |- context [bind (emit ?o) ?k] => set (rest := k) end.
  assert (Hrest : emits release_obs (rest tt)).
  { unfold rest. emits_tac. }
  simpl. rewrite bind_emit.
  match goal with |- context [rest tt ?s1] => destruct (Hrest s1) as (Hc & Ht & rel & Hl & HQ) end.
  simpl in Hc, Ht, Hl.
  split; [assumption|]. split; [assumption|]. exists rel.
  split; [by rewrite Hl, <- app_assoc | assumption].
Qed.

(** ** The shape of one statement of [run] *)

Lemma guarded_shape (m : M unit) p next s :
  emits body_obs m -> in_try p = true -> in_try next = true ->
  step_frame p s (EmulatorCore.guarded m next s).
Proof.
  intros Hm Hp Hn. unfold EmulatorCore.guarded, step_frame.
  destruct (Hm s) as (Hc & Ht & l & Hl & HQ).
  destruct (m s) as [[[]|e] s1]; simpl in *.
  - repeat split; try assumption. exists l. split; [assumption|].
    apply shape_try; auto.
  - repeat split; try assumption. exists (l ++ [OCaught e]).
    split; [by rewrite Hl, Hc, map_app, app_assoc|].
    by apply shape_raise.
Qed.

Lemma run_step_shape env self p s :
  step_frame p s (EmulatorCore.run_step env self p s).
Proof.
  destruct p; cbn [EmulatorCore.run_step].
  - unfold step_frame; simpl. repeat split. exists []. rewrite app_nil_r.
    split; [reflexivity|]. apply shape_try; auto.
  - apply guarded_shape; [apply emits_init_video | reflexivity | reflexivity].
  - unfold step_frame, get_core. destruct (heap s !! self) as [c|]; simpl.
    + repeat split. exists []. rewrite app_nil_r. split; [reflexivity|].
      apply shape_try; auto. destruct (running c); auto.
    + repeat split. exists ([] ++ [OCaught (RuntimeError "dangling core reference")]).
      split; [reflexivity|]. by apply shape_raise.
  - apply guarded_shape; [apply emits_process_input | reflexivity | reflexivity].
  - apply guarded_shape; [apply emits_execute_frame | reflexivity | reflexivity].
  - apply guarded_shape; [apply emits_render_frame | reflexivity | reflexivity].
  - unfold step_frame; simpl. repeat split.
    exists [OPut ("error", str e)]. split; [reflexivity|]. apply shape_handler.
  - unfold step_frame.
    destruct (shutdown_shape env self s) as (Hc & Ht & rel & Hl & HQ).
    destruct (EmulatorCore.shutdown env self s) as [[[]|e] s1]; simpl in *;
      (repeat split; try assumption; exists (OEnter m_shutdown :: rel);
       split; [assumption | by apply shape_finally]).
  - unfold step_frame; simpl. repeat split. exists []. rewrite app_nil_r.
    split; [reflexivity|]. apply shape_returned.
Qed.

(** ** The invariant of a run *)

Lemma run_inv_step p p' l done :
  run_inv p done -> step_shape p p' l -> run_inv p' (done ++ l).
Proof.
  intros Hi Hs. destruct Hs.
  - inversion Hi; subst; try discriminate.
    destruct H0 as [H0| ->].
    + apply inv_try; [assumption|]. rewrite forallb_app. by rewrite H3, H1.
    + rewrite <- (app_nil_r (done ++ l)). apply inv_finally; [|constructor].
      rewrite forallb_app. by rewrite H3, H1.
  - inversion Hi; subst; try discriminate.
    rewrite app_assoc. apply inv_except. rewrite forallb_app. by rewrite H2, H0.
  - inversion Hi; subst; try discriminate.
    rewrite <- app_assoc. simpl. apply inv_finally; [assumption | constructor].
  - inversion Hi; subst; try discriminate.
    rewrite <- app_assoc. by apply inv_returned.
  - by rewrite app_nil_r.
Qed.

(** ** Projections of the trace *)

Lemma by_actor_app a t1 t2 :
  by_actor a (t1 ++ t2) = by_actor a t1 ++ by_actor a t2.
Proof. unfold by_actor. by rewrite filter_app, map_app. Qed.

Lemma by_actor_same a l : by_actor a (map (pair a) l) = l.
Proof.
  unfold by_actor. induction l as [|o l IH]; [reflexivity|].
  simpl. rewrite filter_cons_True by reflexivity. simpl. by rewrite IH.
Qed.

Lemma by_actor_other a b l : a <> b -> by_actor a (map (pair b) l) = [].
Proof.
  intros Hne. unfold by_actor. induction l as [|o l IH]; [reflexivity|].
  simpl. rewrite filter_cons_False by (simpl; congruence). exact IH.
Qed.

(** ** Every thread of the program obeys the invariant of [run] *)

Lemma emits_ui_frame (m : M unit) s :
  emits any_obs m -> ui_frame s (on_ui m s).
Proof.
  intros Hm. unfold on_ui. destruct (Hm (set_cur UiThread s)) as (_ & Ht & l & Hl & _).
  exists l, []. rewrite app_nil_r. simpl in *. by repeat split.
Qed.

Lemma ui_frame_refl s : ui_frame s s.
Proof. exists [], []. by rewrite !app_nil_r. Qed.

Lemma emits_update_gui Q f : emits Q (EmulatorGUI.update_gui f).
Proof. apply emits_modify. intros s. by repeat split. Qed.

Lemma emits_log Q message error : emits Q (EmulatorGUI.log message error).
Proof.
  unfold EmulatorGUI.log. apply emits_bind; [apply emits_update_gui|].
  intros _. apply emits_update_gui.
Qed.

Lemma emits_core_init Q : emits Q EmulatorCore.init.
Proof. intros s. simpl. repeat split. exists []. by rewrite app_nil_r. Qed.

Lemma emits_core_load_rom env self path :
  emits any_obs (EmulatorCore.load_rom env self path).
Proof.
  intros s. unfold EmulatorCore.load_rom, try_except, bind, EmulatorCore.open_and_read.
  destruct (read_file env (clock s) path); simpl; repeat split;
    eexists [_]; split; reflexivity.
Qed.

Lemma emits_gui_load_rom env path : emits any_obs (EmulatorGUI.load_rom env path).
Proof.
  unfold EmulatorGUI.load_rom. destruct (negb _); [|apply emits_ret].
  apply emits_bind; [apply emits_core_init|]. intros c.
  apply emits_bind; [apply emits_update_gui|]. intros _.
  apply emits_bind; [apply emits_core_load_rom|]. intros [].
  - apply emits_bind; [apply emits_update_gui|]. intros _. apply emits_update_gui.
  - apply emits_ret.
Qed.

Lemma emits_stop_emulation : emits any_obs EmulatorGUI.stop_emulation.
Proof.
  unfold EmulatorGUI.stop_emulation. apply emits_bind; [apply emits_get_state|].
  intros s. destruct (emulator_core (gui s)); [|apply emits_ret].
  apply emits_bind; [apply emits_update_core|]. intros _.
  apply emits_bind; [apply emits_update_gui|]. intros _.
  apply emits_bind; [apply emits_update_gui|]. intros _.
  apply emits_log.
Qed.

Lemma start_emulation_frame s : ui_frame s (on_ui EmulatorGUI.start_emulation s).
Proof.
  unfold on_ui, EmulatorGUI.start_emulation, bind. simpl.
  destruct (emulator_core (gui s)) as [c|]; simpl.
  - exists [], [{| t_core := c; t_pc := AtRunStart |}]. rewrite app_nil_r.
    repeat split. by constructor.
  - exists [], []. simpl. by rewrite !app_nil_r.
Qed.

Lemma check_queue_frame fuel : forall s s',
  cur s = UiThread ->
  EmulatorGUI.check_queue fuel s = Some s' ->
  exists l, trace s' = trace s ++ map (pair UiThread) l /\ threads s' = threads s.
Proof.
  induction fuel as [|fuel IH]; intros s s' Hc H; [discriminate|].
  simpl in H. unfold queue_get_nowait in H.
  destruct (queue s) as [|m q] eqn:Hq.
  - inversion H; subst. exists []. by rewrite app_nil_r.
  - match type of H with EmulatorGUI.check_queue _ ?s1 = _ =>
      destruct (IH s1 s') as (l & Hl & Ht); [| exact H |] end.
    + destruct m as [ty content]. simpl.
      destruct (String.eqb ty "log"); [exact Hc|].
      destruct (String.eqb ty "error"); exact Hc.
    + exists (OGet m :: l). rewrite Hl, Ht. destruct m as [ty content]. simpl.
      destruct (String.eqb ty "log"); simpl;
        [by rewrite Hc, <- app_assoc|].
      destruct (String.eqb ty "error"); simpl; by rewrite Hc, <- app_assoc.
Qed.

Lemma threads_ok_boot : threads_ok boot.
Proof. split; [intros tid th H; discriminate | reflexivity]. Qed.

Lemma threads_ok_ui s s' : threads_ok s -> ui_frame s s' -> threads_ok s'.
Proof.
  intros [Hinv Hnone] (l & new & Htr & Hth & Hnew). split.
  - intros tid th Hlk. rewrite Htr, by_actor_app, by_actor_other, app_nil_r by discriminate.
    rewrite Hth in Hlk. destruct (decide (tid < length (threads s))) as [Hlt|Hge].
    + rewrite lookup_app_l in Hlk by exact Hlt. by apply Hinv.
    + rewrite Hnone by lia.
      rewrite lookup_app_r in Hlk by lia.
      apply list_elem_of_lookup_2 in Hlk.
      rewrite Forall_forall in Hnew. rewrite (Hnew _ Hlk).
      by apply inv_try.
  - intros tid Hlen. rewrite Htr, by_actor_app, by_actor_other, app_nil_r by discriminate.
    apply Hnone. rewrite Hth, length_app in Hlen. lia.
Qed.

Lemma threads_ok_step env tid s : threads_ok s -> threads_ok (step_thread env tid s).
Proof.
  intros [Hinv Hnone]. unfold step_thread.
  destruct (threads s !! tid) as [th|] eqn:Hth; [|by split].
  pose proof (run_step_shape env (t_core th) (t_pc th) (set_cur (Worker tid) s)) as Hf.
  destruct (EmulatorCore.run_step env (t_core th) (t_pc th) (set_cur (Worker tid) s))
    as [p' s1].
  destruct Hf as (_ & Ht & l & Hl & Hshape). simpl in Ht, Hl, Hshape.
  unfold threads_ok. simpl. split.
  - intros tid' th' Hlk. rewrite Hl, by_actor_app. rewrite Ht in Hlk.
    destruct (decide (tid' = tid)) as [->|Hne].
    + rewrite list_lookup_insert_eq in Hlk by (by eapply lookup_lt_Some).
      inversion Hlk; subst th'. simpl. rewrite by_actor_same.
      eapply run_inv_step; [by apply Hinv | exact Hshape].
    + rewrite list_lookup_insert_ne in Hlk by congruence.
      rewrite by_actor_other, app_nil_r by congruence. by apply Hinv.
  - intros tid' Hlen. rewrite length_insert, Ht in Hlen.
    rewrite Hl, by_actor_app, Hnone by exact Hlen.
    apply by_actor_other. intros [= ->]. apply lookup_lt_Some in Hth. lia.
Qed.

Lemma threads_ok_dispatch env a s : threads_ok s -> threads_ok (dispatch env a s).
Proof.
  intros Hok. destruct a as [answer| | | |tid]; unfold dispatch.
  - eapply threads_ok_ui; [exact Hok|]. apply emits_ui_frame, emits_gui_load_rom.
  - destruct (start_button (gui s)); [|exact Hok].
    eapply threads_ok_ui; [exact Hok|]. apply start_emulation_frame.
  - destruct (stop_button (gui s)); [|exact Hok].
    eapply threads_ok_ui; [exact Hok|]. apply emits_ui_frame, emits_stop_emulation.
  - match goal with |- context [EmulatorGUI.check_queue ?f ?x] =>
      destruct (EmulatorGUI.check_queue f x) as [s'|] eqn:Hq; [|exact Hok] end.
    apply check_queue_frame in Hq as (l & Hl & Ht); [|reflexivity].
    eapply threads_ok_ui; [exact Hok|]. exists l, []. rewrite app_nil_r.
    simpl in Hl, Ht. by repeat split.
  - by apply threads_ok_step.
Qed.

Lemma threads_ok_exec env sched : forall s,
  threads_ok s -> threads_ok (exec env sched s).
Proof.
  induction sched as [|a sched IH]; intros s Hok; [exact Hok|].
  simpl. apply IH. by apply threads_ok_dispatch.
Qed.

(** ** Counting in a finished run *)

Lemma count_app f l1 l2 : count f (l1 ++ l2) = count f l1 + count f l2.
Proof. unfold count. by rewrite List.filter_app, length_app. Qed.

Lemma count_none (f g : obs -> bool) l :
  (forall o, g o = true -> f o = false) -> forallb g l = true -> count f l = 0.
Proof.
  intros Hfg. unfold count. induction l as [|o l IH]; [reflexivity|].
  simpl. intros [Ho Hl]%andb_prop. rewrite (Hfg o Ho). auto.
Qed.

Lemma body_not_shutdown o : body_obs o = true -> is_shutdown o = false.
Proof. destruct o as [c|[]| | |]; simpl; congruence. Qed.

Lemma release_not_shutdown o : release_obs o = true -> is_shutdown o = false.
Proof. destruct o as [c|[]| | |]; simpl; congruence. Qed.

Lemma body_not_put o : body_obs o = true -> is_put o = false.
Proof. destruct o as [c|[]| | |]; simpl; congruence. Qed.

Lemma release_not_put o : release_obs o = true -> is_put o = false.
Proof. destruct o as [c|[]| | |]; simpl; congruence. Qed.

Lemma run_inv_returned_counts r l :
  run_inv (Returned r) l ->
  count is_shutdown l = 1 /\ count is_put l <= 1 /\ count is_put l = count is_caught l.
Proof.
  intros H. inversion H as [p b Hp|?|?|r' body h rel Hb Hh Hr]; subst; [discriminate|].
  rewrite !count_app.
  change (OEnter m_shutdown :: rel) with ([OEnter m_shutdown] ++ rel).
  rewrite !count_app.
  rewrite (count_none is_shutdown body_obs body body_not_shutdown Hb).
  rewrite (count_none is_shutdown release_obs rel release_not_shutdown Hr).
  rewrite (count_none is_put body_obs body body_not_put Hb).
  rewrite (count_none is_put release_obs rel release_not_put Hr).
  rewrite (count_none is_caught body_obs body) by (try exact Hb; by intros [c|[]| | |]).
  rewrite (count_none is_caught release_obs rel) by (try exact Hr; by intros [c|[]| | |]).
  destruct Hh; simpl; repeat split; lia.
Qed.

(** ** The event channel *)

Lemma put_all_spec ms : forall s,
  queue (put_all ms s) = queue s ++ ms /\
  trace (put_all ms s) = trace s ++ map (fun m => (cur s, OPut m)) ms /\
  gui (put_all ms s) = gui s /\ cur (put_all ms s) = cur s.
Proof.
  induction ms as [|m ms IH]; intros s.
  - simpl. by rewrite !app_nil_r.
  - change (put_all (m :: ms) s) with (put_all ms (snd (queue_put m s))).
    destruct (IH (snd (queue_put m s))) as (Hq & Ht & Hg & Hc).
    rewrite Hq, Ht, Hg, Hc. simpl. by rewrite <- !app_assoc.
Qed.

Lemma handle_message_spec m s :
  let s' := snd (EmulatorGUI.handle_message m s) in
  queue s' = queue s /\ trace s' = trace s /\ cur s' = cur s /\
  log_file (gui s') = log_file (gui s) ++ rendered m.
Proof.
  destruct m as [ty content]. unfold EmulatorGUI.handle_message, rendered. simpl.
  destruct (String.eqb ty "log"); simpl; [by repeat split|].
  destruct (String.eqb ty "error"); simpl; [by repeat split|].
  by rewrite app_nil_r.
Qed.

Lemma check_queue_drains fuel : forall s,
  length (queue s) < fuel ->
  exists s',
    EmulatorGUI.check_queue fuel s = Some s' /\
    queue s' = [] /\
    trace s' = trace s ++ map (fun m => (cur s, OGet m)) (queue s) /\
    log_file (gui s') = log_file (gui s) ++ flat_map rendered (queue s).
Proof.
  induction fuel as [|fuel IH]; intros s Hlen; [lia|].
  simpl. unfold queue_get_nowait. destruct (queue s) as [|m q] eqn:Hq.
  - exists s. rewrite Hq. simpl. by rewrite !app_nil_r.
  - set (s1 := set_trace (trace s ++ [(cur s, OGet m)]) (set_queue q s)).
    destruct (handle_message_spec m s1) as (Hq1 & Ht1 & Hc1 & Hl1).
    destruct (IH (snd (EmulatorGUI.handle_message m s1))) as (s' & Hs' & Hq' & Ht' & Hl').
    { rewrite Hq1. simpl in *. lia. }
    exists s'. split; [exact Hs'|]. split; [exact Hq'|].
    rewrite Ht', Hl', Hq1, Ht1, Hc1, Hl1. simpl.
    by rewrite <- !app_assoc.
Qed.

(** C4: [put] returns at once with the message appended; [check_queue]
    stops after at most one iteration more than there are queued
    messages, takes every one of them in the order they were put (the
    queue is empty afterwards; none when none was pending) and logs them
    in that order. *)
Theorem C4_drain_all_is_fifo s evs fuel :
  length (queue s) + length evs < fuel ->
  (forall m, fst (queue_put m s) = Ret tt /\
             queue (snd (queue_put m s)) = queue s ++ [m]) /\
  exists s',
    EmulatorGUI.check_queue fuel (put_all evs s) = Some s' /\
    queue s' = [] /\
    trace s' = trace s ++ map (fun m => (cur s, OPut m)) evs
                       ++ map (fun m => (cur s, OGet m)) (queue s ++ evs) /\
    log_file (gui s') = log_file (gui s) ++ flat_map rendered (queue s ++ evs).
Proof.
  intros Hlen. split; [by intros m|].
  destruct (put_all_spec evs s) as (Hq & Ht & Hg & Hc).
  destruct (check_queue_drains fuel (put_all evs s)) as (s' & Hs' & Hq' & Ht' & Hl').
  { rewrite Hq, length_app. exact Hlen. }
  exists s'. rewrite Hq, Ht, Hg, Hc in *. rewrite <- app_assoc in Ht'. by repeat split.
Qed.

(** ** FIFO delivery in every execution *)

Lemma msgs_put_app t1 t2 : msgs_put (t1 ++ t2) = msgs_put t1 ++ msgs_put t2.
Proof. apply flat_map_app. Qed.

Lemma msgs_got_app t1 t2 : msgs_got (t1 ++ t2) = msgs_got t1 ++ msgs_got t2.
Proof. apply flat_map_app. Qed.

Lemma keeps_ret {A} I (a : A) : keeps I (ret a).
Proof. by intros s. Qed.

Lemma keeps_raise {A} I e : keeps I (@raise A e).
Proof. by intros s. Qed.

Lemma keeps_bind {A B} I (m : M A) (k : A -> M B) :
  keeps I m -> (forall a, keeps I (k a)) -> keeps I (bind m k).
Proof.
  intros Hm Hk s Hs. unfold bind. specialize (Hm s Hs).
  destruct (m s) as [[a|e] s1]; simpl in *; [by apply Hk | exact Hm].
Qed.

Lemma keeps_try_except {A} I (m : M A) h :
  keeps I m -> (forall e, keeps I (h e)) -> keeps I (try_except m h).
Proof.
  intros Hm Hh s Hs. unfold try_except. specialize (Hm s Hs).
  destruct (m s) as [[a|e] s1]; simpl in *; [exact Hm | by apply Hh].
Qed.

Lemma fifo_frame s s' :
  trace s' = trace s -> queue s' = queue s -> fifo s -> fifo s'.
Proof. unfold fifo. by intros -> ->. Qed.

Lemma fifo_silent s o :
  is_put o = false -> (forall m, o <> OGet m) ->
  fifo s -> fifo (set_trace (trace s ++ [(cur s, o)]) s).
Proof.
  unfold fifo. intros Hp Hg H. simpl.
  rewrite msgs_put_app, msgs_got_app, H. simpl.
  destruct o; simpl in *; try discriminate; rewrite ?app_nil_r; try reflexivity.
  by destruct (Hg m).
Qed.

Lemma keeps_fifo_get_state : keeps fifo get_state.
Proof. by intros s. Qed.

Lemma keeps_fifo_modify f :
  (forall s, trace (f s) = trace s /\ queue (f s) = queue s) ->
  keeps fifo (modify f).
Proof. intros H s Hs. destruct (H s). by eapply fifo_frame. Qed.

Lemma keeps_fifo_emit o :
  is_put o = false -> (forall m, o <> OGet m) -> keeps fifo (emit o).
Proof. intros Hp Hg s Hs. by apply fifo_silent. Qed.

Lemma keeps_fifo_get_core self : keeps fifo (get_core self).
Proof. intros s Hs. unfold get_core. by destruct (heap s !! self). Qed.

Lemma keeps_fifo_update_core self f : keeps fifo (update_core self f).
Proof. apply keeps_fifo_modify. by intros s. Qed.

Lemma keeps_fifo_update_gui f : keeps fifo (EmulatorGUI.update_gui f).
Proof. apply keeps_fifo_modify. by intros s. Qed.

Lemma keeps_fifo_queue_put m : keeps fifo (queue_put m).
Proof.
  intros s. unfold fifo. simpl. intros H.
  rewrite msgs_put_app, msgs_got_app, H. simpl.
  by rewrite app_nil_r, app_assoc.
Qed.

Lemma keeps_fifo_queue_get_nowait : keeps fifo queue_get_nowait.
Proof.
  intros s. unfold fifo, queue_get_nowait. intros H.
  destruct (queue s) as [|m q] eqn:Hq; simpl; [by rewrite Hq|].
  rewrite msgs_put_app, msgs_got_app, H. simpl.
  by rewrite app_nil_r, <- app_assoc.
Qed.

Lemma keeps_fifo_ffi {A} env c (answer : nat -> A) : keeps fifo (ffi env c answer).
Proof.
  intros s Hs. unfold ffi.
  assert (fifo (set_clock (S (clock s)) (set_trace (trace s ++ [(cur s, OCall c)]) s))).
  { eapply fifo_frame; [| |by apply (fifo_silent s (OCall c))]; reflexivity. }
  by destruct (ffi_fault env (clock s)).
Qed.

Ltac keeps_tac :=
  repeat first
    [ apply keeps_ret | apply keeps_raise | apply keeps_fifo_get_state
    | apply keeps_fifo_get_core | apply keeps_fifo_update_core
    | apply keeps_fifo_update_gui
    | apply keeps_fifo_queue_put | apply keeps_fifo_ffi
    | (apply keeps_fifo_emit; [reflexivity | discriminate])
    | (apply keeps_bind; [|intros ?])
    | (apply keeps_try_except; [|intros ?])
    | match goal with |- keeps _ (if ?b then _ else _) => destruct b end
    | match goal with |- keeps _ (match ?b with Some _ => _ | None => _ end) => destruct b end ].

Lemma keeps_fifo_init_video env self : keeps fifo (EmulatorCore.init_video env self).
Proof. unfold EmulatorCore.init_video. keeps_tac. Qed.

Lemma keeps_fifo_poll_loop env self evs : keeps fifo (EmulatorCore.poll_loop env self evs).
Proof. induction evs as [|ty evs IH]; simpl; keeps_tac. exact IH. Qed.

Lemma keeps_fifo_process_input env self : keeps fifo (EmulatorCore.process_input env self).
Proof. unfold EmulatorCore.process_input. keeps_tac. apply keeps_fifo_poll_loop. Qed.

Lemma keeps_fifo_execute_frame self : keeps fifo (EmulatorCore.execute_frame self).
Proof. unfold EmulatorCore.execute_frame. keeps_tac. Qed.

Lemma keeps_fifo_render_frame env self : keeps fifo (EmulatorCore.render_frame env self).
Proof. unfold EmulatorCore.render_frame. keeps_tac. Qed.

Lemma keeps_fifo_shutdown env self : keeps fifo (EmulatorCore.shutdown env self).
Proof. unfold EmulatorCore.shutdown. keeps_tac. Qed.

Lemma keeps_fifo_open_and_read env path : keeps fifo (EmulatorCore.open_and_read env path).
Proof.
  intros s Hs. unfold EmulatorCore.open_and_read.
  assert (fifo (set_clock (S (clock s)) s)) by (by eapply fifo_frame).
  by destruct (read_file env (clock s) path).
Qed.

Lemma keeps_fifo_core_load_rom env self path :
  keeps fifo (EmulatorCore.load_rom env self path).
Proof.
  unfold EmulatorCore.load_rom. keeps_tac. apply keeps_fifo_open_and_read.
Qed.

Lemma keeps_fifo_log message error : keeps fifo (EmulatorGUI.log message error).
Proof. unfold EmulatorGUI.log. keeps_tac. Qed.

Lemma keeps_fifo_gui_load_rom env path : keeps fifo (EmulatorGUI.load_rom env path).
Proof.
  unfold EmulatorGUI.load_rom. keeps_tac. apply keeps_fifo_open_and_read.
Qed.

Lemma keeps_fifo_start_emulation : keeps fifo EmulatorGUI.start_emulation.
Proof.
  unfold EmulatorGUI.start_emulation. keeps_tac.
Qed.

Lemma keeps_fifo_stop_emulation : keeps fifo EmulatorGUI.stop_emulation.
Proof. unfold EmulatorGUI.stop_emulation. keeps_tac. Qed.

Lemma keeps_fifo_handle_message m : keeps fifo (EmulatorGUI.handle_message m).
Proof.
  destruct m as [ty content]. unfold EmulatorGUI.handle_message.
  keeps_tac.
Qed.

Lemma fifo_check_queue fuel : forall s s',
  fifo s -> EmulatorGUI.check_queue fuel s = Some s' -> fifo s'.
Proof.
  induction fuel as [|fuel IH]; intros s s' Hs H; [discriminate|].
  simpl in H. pose proof (keeps_fifo_queue_get_nowait s Hs) as Hg.
  destruct (queue_get_nowait s) as [[m|e] s1]; simpl in Hg.
  - eapply IH; [|exact H]. by apply keeps_fifo_handle_message.
  - by inversion H; subst.
Qed.

Lemma fifo_set_cur a s : fifo s -> fifo (set_cur a s).
Proof. by apply fifo_frame. Qed.

Lemma fifo_run_step env self p s :
  fifo s -> fifo (snd (EmulatorCore.run_step env self p s)).
Proof.
  assert (Hguard : forall (m : M unit) next s0,
            keeps fifo m -> fifo s0 -> fifo (snd (EmulatorCore.guarded m next s0))).
  { intros m next s0 Hm Hs0. unfold EmulatorCore.guarded. specialize (Hm s0 Hs0).
    destruct (m s0) as [[[]|e] s1]; simpl in *; [exact Hm|].
    by apply (fifo_silent s1 (OCaught e)). }
  intros Hs. destruct p; cbn [EmulatorCore.run_step].
  - by apply keeps_fifo_update_core.
  - apply Hguard; [apply keeps_fifo_init_video | exact Hs].
  - unfold get_core. destruct (heap s !! self); simpl; [exact Hs|].
    by apply (fifo_silent s (OCaught _)).
  - apply Hguard; [apply keeps_fifo_process_input | exact Hs].
  - apply Hguard; [apply keeps_fifo_execute_frame | exact Hs].
  - apply Hguard; [apply keeps_fifo_render_frame | exact Hs].
  - by apply keeps_fifo_queue_put.
  - pose proof (keeps_fifo_shutdown env self s Hs) as H.
    by destruct (EmulatorCore.shutdown env self s) as [[[]|e] s1].
  - exact Hs.
Qed.

Lemma fifo_dispatch env a s : fifo s -> fifo (dispatch env a s).
Proof.
  intros Hs. destruct a as [answer| | | |tid]; unfold dispatch.
  - by apply keeps_fifo_gui_load_rom, fifo_set_cur.
  - destruct (start_button (gui s)); [|exact Hs].
    by apply keeps_fifo_start_emulation, fifo_set_cur.
  - destruct (stop_button (gui s)); [|exact Hs].
    by apply keeps_fifo_stop_emulation, fifo_set_cur.
  - match goal with |- context [EmulatorGUI.check_queue ?f ?x] =>
      destruct (EmulatorGUI.check_queue f x) as [s'|] eqn:Hq; [|exact Hs] end.
    eapply fifo_check_queue; [|exact Hq]. by apply fifo_set_cur.
  - unfold step_thread. destruct (threads s !! tid) as [th|]; [|exact Hs].
    pose proof (fifo_run_step env (t_core th) (t_pc th) _ (fifo_set_cur (Worker tid) s Hs)) as H.
    destruct (EmulatorCore.run_step _ _ _ _) as [p' s1]. simpl in *.
    by eapply fifo_frame; [| |exact H].
Qed.

(** In every execution, whatever the interleaving of the producers and
    of the controller's polling, the messages taken so far followed by
    the messages still queued are the messages put, in the order they
    were put. *)
Lemma fifo_exec env sched : forall s, fifo s -> fifo (exec env sched s).
Proof.
  induction sched as [|a sched IH]; intros s Hs; [exact Hs|].
  simpl. by apply IH, fifo_dispatch.
Qed.

Lemma fifo_boot : fifo boot.
Proof. reflexivity. Qed.

(** ** Loading a ROM *)

(** C2: when opening or reading the file fails, [load_rom] returns
    [False], puts exactly one message [('error', ...)] that carries the
    failure reason, and leaves the store of core objects — hence the
    [rom_data] of the core — exactly as it was. *)
Theorem C2_failed_load_keeps_rom env s self path reason :
  failure_reason (read_file env (clock s) path) = Some reason ->
  exists s',
    EmulatorCore.load_rom env self path s = (Ret false, s') /\
    heap s' = heap s /\
    queue s' = queue s ++ [("error", "ROM loading failed: " +:+ reason)] /\
    trace s' = trace s
      ++ [(cur s, OPut ("error", "ROM loading failed: " +:+ reason))].
Proof.
  intros Hf. destruct (load_rom_failure env s self path reason Hf)
    as (s' & Hr & Hh & Hq & Ht & _).
  by exists s'.
Qed.

(** A path without a slash is its own name. *)
Lemma path_name_plain name :
  (forall c, c ∈ list_ascii_of_string name -> c <> "/"%char) ->
  name <> EmptyString -> name <> "." ->
  path_name name = name.
Proof.
  intros Hns Hne Hdot. unfold path_name, path_parts.
  rewrite (split_slash_no_slash name) by exact Hns.
  change (EmptyString +:+ name) with name.
  by rewrite filter_cons_True by (split; assumption).
Qed.

(** C7: when the file is read and holds the bytes [B], [load_rom]
    returns [True]; afterwards the core's [rom_data] is exactly [B],
    its run flag and handles are what they were and the other cores are
    untouched; and exactly one message is put,
    [('log', "Loaded ROM: <name>")], where the name is the final
    component of the path: for a path [dir/name] it is [name], and a
    path without a slash is named in full. *)
Theorem C7_successful_load_stores_bytes env s self c path B :
  heap s !! self = Some c ->
  read_file env (clock s) path = Content B ->
  exists s' c',
    EmulatorCore.load_rom env self path s = (Ret true, s') /\
    heap s' !! self = Some c' /\
    rom_data c' = Some B /\
    running c' = running c /\
    window c' = window c /\
    renderer c' = renderer c /\
    (forall other, other <> self -> heap s' !! other = heap s !! other) /\
    queue s' = queue s ++ [("log", "Loaded ROM: " +:+ path_name path)] /\
    trace s' = trace s
      ++ [(cur s, OPut ("log", "Loaded ROM: " +:+ path_name path))] /\
    (forall dir name,
       (forall ch, ch ∈ list_ascii_of_string name -> ch <> "/"%char) ->
       name <> EmptyString -> name <> "." ->
       (path = dir +:+ String "/"%char name \/ path = name) ->
       queue s' = queue s ++ [("log", "Loaded ROM: " +:+ name)]).
Proof.
  intros Hc Hf. destruct (load_rom_success env s self path B Hf)
    as (s' & Hr & Hh & Hq & Ht & _).
  exists s', (set_rom_data (Some B) c). split; [exact Hr|]. rewrite Hh. split.
  { by rewrite list_lookup_alter_eq, Hc. }
  do 4 (split; [reflexivity|]).
  split; [intros other Hne; by rewrite list_lookup_alter_ne|].
  split; [exact Hq|]. split; [exact Ht|].
  intros dir name Hns Hne Hdot [->| ->]; rewrite Hq.
  - by rewrite path_name_basename.
  - by rewrite path_name_plain.
Qed.

Lemma String_eqb_empty path : path <> EmptyString -> String.eqb path EmptyString = false.
Proof. intros H. by apply String.eqb_neq. Qed.

(** C10: the controller's [load_rom], for a non-empty path whose read
    fails, has already replaced its core by a fresh instance: the active
    core is the new object, it holds no ROM whatever the previous active
    core held, both buttons keep their states, and the one error message
    is queued. *)
Theorem C10_failed_load_discards_core env s path reason :
  path <> EmptyString ->
  failure_reason (read_file env (clock s) path) = Some reason ->
  let s' := on_ui (EmulatorGUI.load_rom env path) s in
  emulator_core (gui s') = Some (length (heap s)) /\
  heap s' = heap s ++ [EmulatorCore.fresh] /\
  active_rom s' = None /\
  start_button (gui s') = start_button (gui s) /\
  stop_button (gui s') = stop_button (gui s) /\
  queue s' = queue s ++ [("error", "ROM loading failed: " +:+ reason)].
Proof.
  intros Hp Hf s'.
  set (s1 := set_gui (set_emulator_core (Some (length (heap s))) (gui s))
               (set_heap (heap s ++ [EmulatorCore.fresh]) (set_cur UiThread s))).
  destruct (load_rom_failure env s1 (length (heap s)) path reason Hf)
    as (s2 & Hr & Hh & Hq & Ht & Hg & _).
  assert (Heq : s' = s2).
  { subst s'. unfold on_ui, EmulatorGUI.load_rom.
    rewrite (String_eqb_empty path Hp). unfold bind. simpl. fold s1.
    by rewrite Hr. }
  rewrite Heq, Hg, Hh, Hq. simpl. repeat split.
  unfold active_rom. rewrite Hg, Hh. simpl. by rewrite list_lookup_middle.
Qed.

(** ** Starting and stopping *)

(** C3, as stated, fails.  After a successful load followed by a failed
    one the active core holds no ROM and the start button is still
    enabled, yet [start_emulation] starts a thread.  Two calls of
    [start_emulation] in a row start two threads on the same core, and
    both enter the loop; so do a start, a stop and a second start
    delivered through the buttons, because the second [run] sets the
    shared flag again before the first thread has tested it. *)
Lemma C3_start_counterexample :
  ~ start_refuses_without_rom
      (exec env_play [ClickLoad rom_path; ClickLoad "/roms/missing.z64"] boot) /\
  ~ single_loop
      (exec env_play (steps 0 3 ++ steps 1 3)
         (on_ui EmulatorGUI.start_emulation
            (on_ui EmulatorGUI.start_emulation
               (exec env_play [ClickLoad rom_path] boot)))) /\
  ~ single_loop
      (exec env_play
         ([ClickLoad rom_path; ClickStart] ++ steps 0 3
          ++ [ClickStop; ClickStart] ++ steps 1 3 ++ steps 0 4) boot).
Proof.
  split; [|split].
  - intros H. destruct (H eq_refl) as (_ & _ & _ & Hth).
    vm_compute in Hth. discriminate.
  - intros H. specialize (H 0). vm_compute in H. lia.
  - intros H. specialize (H 0). vm_compute in H. lia.
Qed.

(** C3, amended: [start_emulation] does nothing exactly when the
    controller holds no core object.  When it holds one — with or
    without ROM bytes, with or without a thread already running on it —
    it starts one more thread on that core, records it, disables Start,
    enables Stop and logs "Emulation started".  The only gate against a
    second start is the Start button it has just disabled: a second
    click that follows immediately is not delivered. *)
Theorem C3_start_emulation_guard env s :
  let s' := on_ui EmulatorGUI.start_emulation s in
  (emulator_core (gui s) = None -> unchanged s s') /\
  (forall c, emulator_core (gui s) = Some c ->
     threads s' = threads s ++ [{| t_core := c; t_pc := AtRunStart |}] /\
     emulator_thread (gui s') = Some (length (threads s)) /\
     emulator_core (gui s') = Some c /\
     start_button (gui s') = DISABLED /\
     stop_button (gui s') = NORMAL /\
     log_file (gui s') = log_file (gui s) ++ [(INFO, "Emulation started")] /\
     heap s' = heap s /\ queue s' = queue s) /\
  dispatch env ClickStart (dispatch env ClickStart s) = dispatch env ClickStart s.
Proof.
  unfold on_ui, EmulatorGUI.start_emulation, unchanged. simpl. unfold bind. simpl.
  split; [|split].
  - intros Hc. rewrite Hc. simpl. destruct (gui s). by repeat split.
  - intros c Hc. rewrite Hc. simpl. by repeat split.
  - destruct (start_button (gui s)) eqn:Hb; simpl; rewrite ?Hb; [|reflexivity].
    unfold on_ui, EmulatorGUI.start_emulation, bind. simpl.
    destruct (emulator_core (gui s)) eqn:Hc; simpl; [reflexivity|].
    by rewrite Hb, Hc.
Qed.

(** C8, as stated, fails.  Right after a load no thread exists, and
    after the window was closed the only thread has returned while the
    Stop button is still enabled; in both states [stop_emulation] logs
    "Emulation stopped", and in the second it also flips both buttons. *)
Lemma C8_stop_counterexample :
  ~ stop_refuses_without_loop (exec env_play [ClickLoad rom_path] boot) /\
  (let s := exec env_quit ([ClickLoad rom_path; ClickStart] ++ steps 0 16) boot in
   forallb (fun th => negb (live th)) (threads s) = true /\
   ~ unchanged s (dispatch env_quit ClickStop s)).
Proof.
  split; [|split].
  - intros H. destruct (H eq_refl) as (Hg & _).
    vm_compute in Hg. discriminate.
  - reflexivity.
  - intros (Hg & _). vm_compute in Hg. discriminate.
Qed.

(** C8, amended: [stop_emulation] does nothing exactly when the
    controller holds no core object.  When it holds one, whether or not
    a loop is running, the run flag of that core is [False] afterwards
    (its ROM and handles, and every other core, are as they were),
    Start is enabled, Stop is disabled and "Emulation stopped" is
    logged; threads and queue are untouched. *)
Theorem C8_stop_emulation_guard s :
  let s' := on_ui EmulatorGUI.stop_emulation s in
  (emulator_core (gui s) = None -> unchanged s s') /\
  (forall c, emulator_core (gui s) = Some c ->
     heap s' = alter (set_running false) c (heap s) /\
     (forall o, heap s !! c = Some o ->
        exists o', heap s' !! c = Some o' /\
                   running o' = false /\
                   rom_data o' = rom_data o /\
                   window o' = window o /\
                   renderer o' = renderer o) /\
     (forall other, other <> c -> heap s' !! other = heap s !! other) /\
     start_button (gui s') = NORMAL /\
     stop_button (gui s') = DISABLED /\
     log_file (gui s') = log_file (gui s) ++ [(INFO, "Emulation stopped")] /\
     log_text (gui s') = log_text (gui s) +:+ "Emulation stopped" +:+ newline /\
     threads s' = threads s /\ queue s' = queue s).
Proof.
  unfold on_ui, EmulatorGUI.stop_emulation, unchanged. simpl. unfold bind. simpl.
  split.
  - intros Hc. rewrite Hc. simpl. by repeat split.
  - intros c Hc. rewrite Hc. simpl. split; [reflexivity|].
    split; [|split; [|by repeat split]].
    + intros o Ho. exists (set_running false o).
      by rewrite list_lookup_alter_eq, Ho.
    + intros other Hne. by rewrite list_lookup_alter_ne.
Qed.

(** ** Video bring-up *)

Ltac no_fault_at H k :=
  let F := fresh "F" in
  pose proof (H k ltac:(lia)) as F; simpl in F; rewrite F; clear F.

Ltac fault_excluded H k F0 :=
  let F := fresh "F" in
  pose proof (H k ltac:(lia)) as F; simpl in F; rewrite F in F0; discriminate.

Lemma init_video_reports_init_failure env s self :
  no_fault env (clock s) 2 ->
  ret_SDL_Init env (clock s) <> 0%Z ->
  exists s',
    EmulatorCore.init_video env self s
    = (Raise (RuntimeError ("SDL initialization failed: "
                            +:+ ret_SDL_GetError env (S (clock s)))), s') /\
    heap s' = heap s /\ queue s' = queue s.
Proof.
  intros Hnf Hrc. unfold EmulatorCore.init_video, bind, emit, modify, ffi. simpl.
  no_fault_at Hnf 0. simpl.
  apply Z.eqb_neq in Hrc. rewrite Hrc. simpl.
  no_fault_at Hnf 1. simpl. eexists. by repeat split.
Qed.

(** Once [SDL_Init] has succeeded, [init_video] returns normally and
    stores whatever the two creation calls answered, NULL included. *)
Lemma init_video_stores_unchecked env s self c :
  no_fault env (clock s) 3 ->
  ret_SDL_Init env (clock s) = 0%Z ->
  heap s !! self = Some c ->
  let w := Ptr (ret_SDL_CreateWindow env (S (clock s))) in
  let r := Ptr (ret_SDL_CreateRenderer env (S (S (clock s))) w) in
  exists s',
    EmulatorCore.init_video env self s = (Ret tt, s') /\
    heap s' !! self = Some (set_renderer r (set_window w c)) /\
    queue s' = queue s.
Proof.
  intros Hnf Hrc Hc w r.
  unfold EmulatorCore.init_video, bind, emit, modify, ffi, get_core, update_core. simpl.
  no_fault_at Hnf 0. simpl. rewrite Hrc. simpl.
  no_fault_at Hnf 1. simpl.
  rewrite list_lookup_alter_eq, Hc. simpl.
  no_fault_at Hnf 2. simpl.
  eexists. split; [reflexivity|]. simpl.
  by rewrite !list_lookup_alter_eq, Hc.
Qed.

(** C5 at its failing input: [SDL_Init] succeeds, the window is created
    (address 1) and [SDL_CreateRenderer] answers NULL.  [init_video]
    raises nothing and leaves the core with a usable window and no
    renderer; the run then enters its loop and calls
    [SDL_RenderClear] on the NULL renderer, and no error message is
    ever queued. *)
Theorem C5_renderer_failure_goes_unreported :
  let s0 := exec env_no_renderer [ClickLoad rom_path] boot in
  (exists s1 c,
     EmulatorCore.init_video env_no_renderer 0 s0 = (Ret tt, s1) /\
     heap s1 !! 0 = Some c /\
     truthy (window c) = true /\ truthy (renderer c) = false /\
     ~ video_handle_ok c) /\
  (let s := exec env_no_renderer ([ClickStart] ++ steps 0 6) s0 in
   threads s = [{| t_core := 0; t_pc := AtLoopTest |}] /\
   In (Worker 0, OCall (Call_SDL_RenderClear (Ptr 0))) (trace s) /\
   msgs_put (trace s) = [("log", "Loaded ROM: test.z64")]).
Proof.
  split.
  - exists (snd (EmulatorCore.init_video env_no_renderer 0
                (exec env_no_renderer [ClickLoad rom_path] boot))).
    exists {| running := false; rom_data := Some rom_bytes;
              window := Ptr 1; renderer := Ptr 0 |}.
    split; [vm_compute; reflexivity|]. split; [vm_compute; reflexivity|].
    split; [reflexivity|]. split; [reflexivity|].
    unfold video_handle_ok. simpl. discriminate.
  - split; [vm_compute; reflexivity|]. split; [|vm_compute; reflexivity].
    vm_compute. tauto.
Qed.

(** ** Teardown *)

Lemma releases_present c p :
  In (OCall (Call_SDL_DestroyRenderer p)) (releases c) \/
  In (OCall (Call_SDL_DestroyWindow p)) (releases c) ->
  truthy p = true.
Proof.
  unfold releases.
  destruct (truthy (renderer c)) eqn:Hr, (truthy (window c)) eqn:Hw; simpl;
    intros [H|H];
    repeat match goal with
           | H : _ \/ _ |- _ => destruct H
           | H : False |- _ => destruct H
           | H : OCall _ = OCall _ |- _ => inversion H; clear H; subst
           end; assumption.
Qed.

Lemma prefix_in {A} (l1 l2 : list A) x : l1 `prefix_of` l2 -> In x l1 -> In x l2.
Proof. intros [k ->] H. apply in_or_app. by left. Qed.

(** C6, amended: [shutdown] leaves the core object as it is — the
    handles are not cleared.  What it asks of SDL is, in this order, the
    renderer's release if [self.renderer] is present, the window's if
    [self.window] is present, then [SDL_Quit], stopping early only if
    one of these calls raises; so no absent ([None] or NULL) handle is
    ever released, whatever [init_video] managed to create. *)
Theorem C6_shutdown_releases_what_is_present env s self c :
  heap s !! self = Some c ->
  let s' := snd (EmulatorCore.shutdown env self s) in
  heap s' = heap s /\
  exists rel,
    trace s' = trace s ++ map (pair (cur s)) (OEnter m_shutdown :: rel) /\
    rel `prefix_of` releases c /\
    (forall p, In (OCall (Call_SDL_DestroyRenderer p)) rel \/
               In (OCall (Call_SDL_DestroyWindow p)) rel -> truthy p = true) /\
    (no_fault env (clock s) 3 ->
       rel = releases c /\ fst (EmulatorCore.shutdown env self s) = Ret tt).
Proof.
  intros Hc s'. subst s'.
  assert (Hmain : heap (snd (EmulatorCore.shutdown env self s)) = heap s /\
    exists rel,
      trace (snd (EmulatorCore.shutdown env self s))
      = trace s ++ map (pair (cur s)) (OEnter m_shutdown :: rel) /\
      rel `prefix_of` releases c /\
      (no_fault env (clock s) 3 ->
         rel = releases c /\ fst (EmulatorCore.shutdown env self s) = Ret tt)).
  { unfold EmulatorCore.shutdown, releases, bind, emit, modify, get_core, ffi, ret. simpl.
    rewrite Hc. simpl.
    destruct (truthy (renderer c)); simpl.
    - destruct (ffi_fault env (clock s)) eqn:F0; simpl.
      { split; [reflexivity|]. eexists [_]. split; [by rewrite <- app_assoc|].
        split; [by eexists|]. intros Hnf. fault_excluded Hnf 0 F0. }
      rewrite Hc. simpl. destruct (truthy (window c)); simpl.
      + destruct (ffi_fault env (S (clock s))) eqn:F1; simpl.
        { split; [reflexivity|]. eexists [_; _]. split; [by rewrite <- !app_assoc|].
          split; [by eexists|]. intros Hnf. fault_excluded Hnf 1 F1. }
        split; [by destruct (ffi_fault env (S (S (clock s))))|].
        eexists [_; _; _].
        split; [by destruct (ffi_fault env (S (S (clock s)))); simpl; rewrite <- !app_assoc|].
        split; [by exists []|]. intros Hnf. by no_fault_at Hnf 2.
      + split; [by destruct (ffi_fault env (S (clock s)))|].
        eexists [_; _].
        split; [by destruct (ffi_fault env (S (clock s))); simpl; rewrite <- !app_assoc|].
        split; [by exists []|]. intros Hnf. by no_fault_at Hnf 1.
    - rewrite Hc. simpl. destruct (truthy (window c)); simpl.
      + destruct (ffi_fault env (clock s)) eqn:F0; simpl.
        { split; [reflexivity|]. eexists [_]. split; [by rewrite <- app_assoc|].
          split; [by eexists|]. intros Hnf. fault_excluded Hnf 0 F0. }
        split; [by destruct (ffi_fault env (S (clock s)))|].
        eexists [_; _].
        split; [by destruct (ffi_fault env (S (clock s))); simpl; rewrite <- !app_assoc|].
        split; [by exists []|]. intros Hnf. by no_fault_at Hnf 1.
      + split; [by destruct (ffi_fault env (clock s))|].
        eexists [_].
        split; [by destruct (ffi_fault env (clock s)); simpl; rewrite <- !app_assoc|].
        split; [by exists []|]. intros Hnf. by no_fault_at Hnf 0. }
  destruct Hmain as (Hh & rel & Ht & Hp & Hnf).
  split; [exact Hh|]. exists rel. split; [exact Ht|]. split; [exact Hp|].
  split; [|exact Hnf].
  intros p [H|H]; apply (releases_present c p); [left|right]; by eapply prefix_in.
Qed.

(** C6, as stated, fails: on a core whose video came up, the first
    [shutdown] leaves both handles in place and a second [shutdown]
    hands the same renderer and window to SDL again. *)
Lemma C6_second_shutdown_counterexample :
  ~ second_shutdown_is_noop env_play 0
      (exec env_play ([ClickLoad rom_path; ClickStart] ++ steps 0 2) boot).
Proof.
  unfold second_shutdown_is_noop. vm_compute. discriminate.
Qed.

(** ** [run] without interference *)

Lemma run_from_shape env fuel : forall self p s done r s',
  run_inv p done ->
  EmulatorCore.run_from env fuel self p s = Some (r, s') ->
  exists l, trace s' = trace s ++ map (pair (cur s)) l /\
            run_inv (Returned r) (done ++ l).
Proof.
  assert (Hret : forall self u s done r s' n,
            run_inv (Returned u) done ->
            EmulatorCore.run_from env n self (Returned u) s = Some (r, s') ->
            exists l, trace s' = trace s ++ map (pair (cur s)) l /\
                      run_inv (Returned r) (done ++ l)).
  { intros self u s done r s' n Hi H. destruct n; simpl in H;
      inversion H; subst; exists []; by rewrite !app_nil_r. }
  induction fuel as [|fuel IH]; intros self p s done r s' Hi H.
  - destruct p; try discriminate. by eapply Hret.
  - destruct p; try (by eapply Hret);
      cbn [EmulatorCore.run_from] in H;
      match type of H with
      | (let (_, _) := EmulatorCore.run_step env self ?p s in _) = _ =>
          pose proof (run_step_shape env self p s) as Hf;
          destruct (EmulatorCore.run_step env self p s) as [p' s1];
          destruct Hf as (Hc & _ & l & Hl & Hshape); simpl in Hc, Hl, Hshape;
          destruct (IH self p' s1 (done ++ l) r s' (run_inv_step _ _ _ _ Hi Hshape) H)
            as (l' & Hl' & Hi');
          exists (l ++ l'); rewrite Hl', Hl, Hc, map_app, <- !app_assoc;
          split; [reflexivity | by rewrite <- app_assoc in Hi']
      end.
Qed.

(** The sequential reading of C1: if [run] returns, what it added to
    the trace is the [try] body, at most one caught exception with its
    error message, and then the single [shutdown]. *)
Lemma run_returns_after_one_shutdown env fuel self s r s' :
  EmulatorCore.run env fuel self s = Some (r, s') ->
  exists l, trace s' = trace s ++ map (pair (cur s)) l /\
            run_inv (Returned r) l /\ count is_shutdown l = 1.
Proof.
  intros H. destruct (run_from_shape env fuel self AtRunStart s [] r s') as (l & Hl & Hi);
    [by apply inv_try | exact H |].
  exists l. split; [exact Hl|]. split; [exact Hi|].
  by destruct (run_inv_returned_counts r l Hi).
Qed.

Lemma shutdown_keeps_queue env self s :
  queue (snd (EmulatorCore.shutdown env self s)) = queue s.
Proof.
  unfold EmulatorCore.shutdown, bind, emit, modify, get_core, ffi, ret. simpl.
  destruct (heap s !! self) as [c|] eqn:Hc; simpl; [|reflexivity].
  destruct (truthy (renderer c)); simpl.
  - destruct (ffi_fault env (clock s)); simpl; [reflexivity|].
    rewrite Hc. simpl. destruct (truthy (window c)); simpl.
    + destruct (ffi_fault env (S (clock s))); simpl; [reflexivity|].
      by destruct (ffi_fault env (S (S (clock s)))).
    + by destruct (ffi_fault env (S (clock s))).
  - rewrite Hc. simpl. destruct (truthy (window c)); simpl.
    + destruct (ffi_fault env (clock s)); simpl; [reflexivity|].
      by destruct (ffi_fault env (S (clock s))).
    + by destruct (ffi_fault env (clock s)).
Qed.

(** Once an exception has reached the handler, [run] returns within two
    more statements, the error message queued. *)
Lemma run_returns_from_handler env self e s :
  exists r s',
    EmulatorCore.run_from env 2 self (AtExcept e) s = Some (r, s') /\
    queue s' = queue s ++ [("error", str e)].
Proof.
  cbn [EmulatorCore.run_from EmulatorCore.run_step].
  set (s1 := snd (queue_put ("error", str e) s)).
  pose proof (shutdown_keeps_queue env self s1) as Hq.
  destruct (EmulatorCore.shutdown env self s1) as [[[]|e'] s2]; simpl in Hq;
    eexists _, s2; (split; [reflexivity | exact Hq]).
Qed.

(** Once the run flag reads false at the loop test, [run] returns within
    two more statements. *)
Lemma run_returns_from_loop_test env self c s :
  heap s !! self = Some c -> running c = false ->
  exists r s', EmulatorCore.run_from env 2 self AtLoopTest s = Some (r, s').
Proof.
  intros Hc Hr. cbn [EmulatorCore.run_from EmulatorCore.run_step].
  unfold get_core. rewrite Hc, Hr. simpl.
  destruct (EmulatorCore.shutdown env self s) as [[[]|e'] s2]; by eexists _, _.
Qed.

(** ** The theorems at concrete inputs *)

Example path_name_of_sample : path_name rom_path = "test.z64".
Proof. reflexivity. Qed.

Example path_name_drops_dot : path_name "roms/./test.z64/." = "test.z64".
Proof. reflexivity. Qed.

(** A run whose video never comes up: the error is reported, then
    [shutdown] finds no handle and only quits SDL. *)
Example run_when_init_fails :
  by_actor (Worker 0)
    (trace (exec env_no_video ([ClickLoad rom_path; ClickStart] ++ steps 0 4) boot))
  = [OEnter m_init_video; OCall Call_SDL_Init; OCall Call_SDL_GetError;
     OCaught (RuntimeError "SDL initialization failed: No available video device");
     OPut ("error", "SDL initialization failed: No available video device");
     OEnter m_shutdown; OCall Call_SDL_Quit].
Proof. vm_compute. reflexivity. Qed.

(** A run whose first frame faults while presenting. *)
Example run_when_frame_faults :
  by_actor (Worker 0)
    (trace (exec env_fault ([ClickLoad rom_path; ClickStart] ++ steps 0 9) boot))
  = [OEnter m_init_video; OCall Call_SDL_Init; OCall Call_SDL_CreateWindow;
     OCall (Call_SDL_CreateRenderer (Ptr 1));
     OEnter m_process_input; OCall Call_SDL_PollEvent;
     OEnter m_execute_frame; OEnter m_render_frame;
     OCall (Call_SDL_RenderClear (Ptr 2)); OCall (Call_SDL_RenderPresent (Ptr 2));
     OCaught (ForeignError "access violation");
     OPut ("error", "access violation");
     OEnter m_shutdown; OCall (Call_SDL_DestroyRenderer (Ptr 2));
     OCall (Call_SDL_DestroyWindow (Ptr 1)); OCall Call_SDL_Quit].
Proof. vm_compute. reflexivity. Qed.

(** Start, stop, start again with [SDL_Init] failing the second time:
    the second run's [shutdown] still sees the handles of the first run
    and hands them to SDL once more. *)
Example stale_handles_are_released_again :
  handle_releases
    (trace (exec env_second_init_fails
              ([ClickLoad rom_path; ClickStart] ++ steps 0 3 ++ [ClickStop]
               ++ steps 0 5 ++ [ClickStart] ++ steps 1 4) boot))
  = [OCall (Call_SDL_DestroyRenderer (Ptr 2)); OCall (Call_SDL_DestroyWindow (Ptr 1));
     OCall (Call_SDL_DestroyRenderer (Ptr 2)); OCall (Call_SDL_DestroyWindow (Ptr 1))].
Proof. vm_compute. reflexivity. Qed.

Lemma C2_failed_load_keeps_rom_witness :
  exists s',
    EmulatorCore.load_rom env_play 0 missing_path loaded = (Ret false, s') /\
    heap s' = heap loaded /\
    queue s' = queue loaded
      ++ [("error", "ROM loading failed: [Errno 2] No such file or directory")] /\
    trace s' = trace loaded
      ++ [(cur loaded,
           OPut ("error", "ROM loading failed: [Errno 2] No such file or directory"))].
Proof.
  refine (C2_failed_load_keeps_rom env_play loaded 0 missing_path
            "[Errno 2] No such file or directory" _).
  vm_compute. reflexivity.
Defined.

Lemma C4_drain_all_is_fifo_witness :
  exists s',
    EmulatorGUI.check_queue 3
      (put_all [("log", "Loaded ROM: test.z64"); ("error", "boom")] boot) = Some s' /\
    queue s' = [] /\
    log_file (gui s')
    = [(INFO, "[INFO] Loaded ROM: test.z64"); (ERROR, "[ERROR] boom")].
Proof.
  destruct (C4_drain_all_is_fifo boot
              [("log", "Loaded ROM: test.z64"); ("error", "boom")] 3)
    as (_ & s' & Hs & Hq & _ & Hl).
  - simpl. lia.
  - exists s'. split; [exact Hs|]. split; [exact Hq|]. exact Hl.
Defined.

Lemma C7_successful_load_stores_bytes_witness :
  exists s' c',
    EmulatorCore.load_rom env_play 1 rom_path
      (snd (EmulatorCore.init loaded)) = (Ret true, s') /\
    heap s' !! 1 = Some c' /\
    rom_data c' = Some rom_bytes /\
    queue s' = queue (snd (EmulatorCore.init loaded))
                 ++ [("log", "Loaded ROM: test.z64")].
Proof.
  destruct (C7_successful_load_stores_bytes env_play
              (snd (EmulatorCore.init loaded)) 1 EmulatorCore.fresh rom_path rom_bytes)
    as (s' & c' & Hr & Hh & Hrom & _ & _ & _ & _ & _ & _ & Hname).
  - vm_compute. reflexivity.
  - vm_compute. reflexivity.
  - exists s', c'. split; [exact Hr|]. split; [exact Hh|]. split; [exact Hrom|].
    apply (Hname "/roms" "test.z64").
    + intros ch Hch. cbv [list_ascii_of_string] in Hch.
      repeat (apply elem_of_cons in Hch as [->|Hch]; [discriminate|]).
      by apply elem_of_nil in Hch.
    + discriminate.
    + discriminate.
    + left. reflexivity.
Defined.

Lemma C10_failed_load_discards_core_witness :
  active_rom loaded = Some rom_bytes /\
  active_rom (on_ui (EmulatorGUI.load_rom env_play missing_path) loaded) = None /\
  start_button (gui (on_ui (EmulatorGUI.load_rom env_play missing_path) loaded))
  = start_button (gui loaded).
Proof.
  split; [vm_compute; reflexivity|].
  destruct (C10_failed_load_discards_core env_play loaded missing_path
              "[Errno 2] No such file or directory")
    as (_ & _ & Hrom & Hstart & _).
  - discriminate.
  - vm_compute. reflexivity.
  - split; [exact Hrom | exact Hstart].
Defined.

Lemma C3_start_emulation_guard_witness :
  unchanged boot (on_ui EmulatorGUI.start_emulation boot) /\
  threads (on_ui EmulatorGUI.start_emulation loaded)
  = threads loaded ++ [{| t_core := 0; t_pc := AtRunStart |}].
Proof.
  split.
  - refine (proj1 (C3_start_emulation_guard env_play boot) _). reflexivity.
  - refine (proj1 (proj1 (proj2 (C3_start_emulation_guard env_play loaded)) 0 _)).
    vm_compute. reflexivity.
Defined.

Lemma C8_stop_emulation_guard_witness :
  unchanged boot (on_ui EmulatorGUI.stop_emulation boot) /\
  log_file (gui (on_ui EmulatorGUI.stop_emulation loaded))
  = log_file (gui loaded) ++ [(INFO, "Emulation stopped")] /\
  running <$> heap video_up !! 0 = Some true /\
  exists o', heap (on_ui EmulatorGUI.stop_emulation video_up) !! 0 = Some o' /\
             running o' = false.
Proof.
  split; [|split; [|split]].
  - refine (proj1 (C8_stop_emulation_guard boot) _). reflexivity.
  - destruct (proj2 (C8_stop_emulation_guard loaded) 0) as (_ & _ & _ & _ & _ & Hl & _).
    + vm_compute. reflexivity.
    + exact Hl.
  - vm_compute. reflexivity.
  - destruct (proj2 (C8_stop_emulation_guard video_up) 0) as (_ & Hrun & _).
    + vm_compute. reflexivity.
    + destruct (Hrun core_playing) as (o' & Ho & Hr & _).
      * vm_compute. reflexivity.
      * exists o'. split; [exact Ho | exact Hr].
Defined.

Lemma C6_shutdown_releases_what_is_present_witness :
  heap (snd (EmulatorCore.shutdown env_play 0 video_up)) = heap video_up.
Proof.
  refine (proj1 (C6_shutdown_releases_what_is_present env_play video_up 0
            {| running := true; rom_data := Some rom_bytes;
               window := Ptr 1; renderer := Ptr 2 |} _)).
  vm_compute. reflexivity.
Defined.

(** ** What a statement of [run] leaves alone *)

Lemma core_step_refl s : core_step s s.
Proof. repeat split. exists []. by rewrite app_nil_r. Qed.

Lemma core_step_trans s1 s2 s3 :
  core_step s1 s2 -> core_step s2 s3 -> core_step s1 s3.
Proof.
  intros (Hg & Ht & Hl & Hr & q & Hq & Hqt) (Hg' & Ht' & Hl' & Hr' & q' & Hq' & Hqt').
  split; [congruence|]. split; [congruence|]. split; [congruence|].
  split; [intros c; by rewrite Hr', Hr|].
  exists (q ++ q'). rewrite Hq', Hq, app_assoc, forallb_app, Hqt, Hqt'. by split.
Qed.

(** A state that differs only in clock, acting thread and trace. *)
Lemma core_step_silent s s' :
  gui s' = gui s -> threads s' = threads s -> heap s' = heap s ->
  queue s' = queue s -> core_step s s'.
Proof.
  intros Hg Ht Hh Hq. repeat split; try assumption; try (by rewrite Hh).
  exists []. by rewrite app_nil_r.
Qed.

Lemma changes_ret {A} (a : A) : changes core_step (ret a).
Proof. intros s. apply core_step_refl. Qed.

Lemma changes_raise {A} e : changes core_step (@raise A e).
Proof. intros s. apply core_step_refl. Qed.

Lemma changes_get_state : changes core_step get_state.
Proof. intros s. apply core_step_refl. Qed.

Lemma changes_bind {A B} (m : M A) (k : A -> M B) :
  changes core_step m -> (forall a, changes core_step (k a)) ->
  changes core_step (bind m k).
Proof.
  intros Hm Hk s. unfold bind. specialize (Hm s).
  destruct (m s) as [[a|e] s1]; simpl in *; [|exact Hm].
  eapply core_step_trans; [exact Hm | apply Hk].
Qed.

Lemma changes_emit o : changes core_step (emit o).
Proof. intros s. by apply core_step_silent. Qed.

Lemma changes_get_core self : changes core_step (get_core self).
Proof.
  intros s. unfold get_core. destruct (heap s !! self); apply core_step_refl.
Qed.

Lemma changes_ffi {A} env c (answer : nat -> A) : changes core_step (ffi env c answer).
Proof.
  intros s. unfold ffi. destruct (ffi_fault env (clock s)); by apply core_step_silent.
Qed.

Lemma changes_update_core self f :
  (forall o, rom_data (f o) = rom_data o) ->
  changes core_step (update_core self f).
Proof.
  intros Hf s. simpl. split; [reflexivity|]. split; [reflexivity|].
  split; [apply length_alter|]. split.
  - intros c. change (heap (set_heap (alter f self (heap s)) s)) with (alter f self (heap s)).
    rewrite list_lookup_alter. destruct (decide (self = c)) as [->|]; [|reflexivity].
    destruct (heap s !! c); simpl; [by rewrite Hf | reflexivity].
  - exists []. by rewrite app_nil_r.
Qed.

Lemma changes_queue_put m : tag_ok m = true -> changes core_step (queue_put m).
Proof.
  intros Hm s. simpl. repeat split. exists [m]. simpl. by rewrite Hm.
Qed.

Ltac changes_tac :=
  repeat first
    [ apply changes_ret | apply changes_raise | apply changes_get_state
    | apply changes_get_core | apply changes_emit | apply changes_ffi
    | (apply changes_update_core; reflexivity)
    | (apply changes_queue_put; reflexivity)
    | (apply changes_bind; [|intros ?])
    | match goal with |- changes _ (if ?b then _ else _) => destruct b end ].

Lemma changes_init_video env self : changes core_step (EmulatorCore.init_video env self).
Proof. unfold EmulatorCore.init_video. changes_tac. Qed.

Lemma changes_poll_loop env self evs : changes core_step (EmulatorCore.poll_loop env self evs).
Proof. induction evs as [|ty evs IH]; simpl; changes_tac. exact IH. Qed.

Lemma changes_process_input env self : changes core_step (EmulatorCore.process_input env self).
Proof. unfold EmulatorCore.process_input. changes_tac. apply changes_poll_loop. Qed.

Lemma changes_execute_frame self : changes core_step (EmulatorCore.execute_frame self).
Proof. unfold EmulatorCore.execute_frame. changes_tac. Qed.

Lemma changes_render_frame env self : changes core_step (EmulatorCore.render_frame env self).
Proof. unfold EmulatorCore.render_frame. changes_tac. Qed.

Lemma changes_shutdown env self : changes core_step (EmulatorCore.shutdown env self).
Proof. unfold EmulatorCore.shutdown. changes_tac. Qed.

Lemma run_step_core_step env self p s :
  core_step s (snd (EmulatorCore.run_step env self p s)).
Proof.
  assert (Hguard : forall (m : M unit) next,
            changes core_step m -> core_step s (snd (EmulatorCore.guarded m next s))).
  { intros m next Hm. unfold EmulatorCore.guarded. specialize (Hm s).
    destruct (m s) as [[[]|e] s1]; simpl in *; [exact Hm|].
    eapply core_step_trans; [exact Hm | by apply core_step_silent]. }
  destruct p; cbn [EmulatorCore.run_step].
  - by apply changes_update_core.
  - apply Hguard, changes_init_video.
  - unfold get_core. destruct (heap s !! self); simpl;
      [apply core_step_refl | by apply core_step_silent].
  - apply Hguard, changes_process_input.
  - apply Hguard, changes_execute_frame.
  - apply Hguard, changes_render_frame.
  - apply changes_queue_put. reflexivity.
  - pose proof (changes_shutdown env self s) as H.
    by destruct (EmulatorCore.shutdown env self s) as [[[]|e] s1].
  - apply core_step_refl.
Qed.

(** ** What the controller's callbacks do, field by field *)

Lemma alter_last {A} (f : A -> A) (l : list A) x :
  alter f (length l) (l ++ [x]) = l ++ [f x].
Proof.
  rewrite <- (Nat.add_0_r (length l)) at 1. by rewrite alter_app_r.
Qed.

Lemma gui_load_rom_cancelled env s :
  on_ui (EmulatorGUI.load_rom env EmptyString) s = set_cur UiThread s.
Proof. reflexivity. Qed.

Lemma gui_load_rom_succeeds env s path B :
  path <> EmptyString ->
  read_file env (clock s) path = Content B ->
  let s' := on_ui (EmulatorGUI.load_rom env path) s in
  gui s' = set_stop_button DISABLED
             (set_start_button NORMAL
                (set_emulator_core (Some (length (heap s))) (gui s))) /\
  heap s' = heap s ++ [set_rom_data (Some B) EmulatorCore.fresh] /\
  queue s' = queue s ++ [("log", "Loaded ROM: " +:+ path_name path)] /\
  threads s' = threads s.
Proof.
  intros Hp Hf s'.
  set (s1 := set_gui (set_emulator_core (Some (length (heap s))) (gui s))
               (set_heap (heap s ++ [EmulatorCore.fresh]) (set_cur UiThread s))).
  destruct (load_rom_success env s1 (length (heap s)) path B Hf)
    as (s2 & Hr & Hh & Hq & Ht & Hg & Hth & _).
  assert (Heq : s' = set_gui (set_stop_button DISABLED (set_start_button NORMAL (gui s2))) s2).
  { subst s'. unfold on_ui, EmulatorGUI.load_rom.
    rewrite (String_eqb_empty path Hp). unfold bind. simpl. fold s1.
    by rewrite Hr. }
  rewrite Heq. simpl. rewrite Hg, Hh, Hq, Hth. simpl.
  by rewrite alter_last.
Qed.

Lemma gui_load_rom_fails env s path reason :
  path <> EmptyString ->
  failure_reason (read_file env (clock s) path) = Some reason ->
  let s' := on_ui (EmulatorGUI.load_rom env path) s in
  gui s' = set_emulator_core (Some (length (heap s))) (gui s) /\
  heap s' = heap s ++ [EmulatorCore.fresh] /\
  queue s' = queue s ++ [("error", "ROM loading failed: " +:+ reason)] /\
  threads s' = threads s.
Proof.
  intros Hp Hf s'.
  set (s1 := set_gui (set_emulator_core (Some (length (heap s))) (gui s))
               (set_heap (heap s ++ [EmulatorCore.fresh]) (set_cur UiThread s))).
  destruct (load_rom_failure env s1 (length (heap s)) path reason Hf)
    as (s2 & Hr & Hh & Hq & Ht & Hg & Hth & _).
  assert (Heq : s' = s2).
  { subst s'. unfold on_ui, EmulatorGUI.load_rom.
    rewrite (String_eqb_empty path Hp). unfold bind. simpl. fold s1.
    by rewrite Hr. }
  rewrite Heq, Hg, Hh, Hq, Hth. by simpl.
Qed.

(** The three outcomes of the controller's [load_rom]. *)
Lemma gui_load_rom_cases env s path :
  let s' := on_ui (EmulatorGUI.load_rom env path) s in
  (path = EmptyString /\ s' = set_cur UiThread s) \/
  (exists m, tag_ok m = true /\ threads s' = threads s /\
     queue s' = queue s ++ [m] /\
     ((exists B, gui s' = set_stop_button DISABLED
                           (set_start_button NORMAL
                              (set_emulator_core (Some (length (heap s))) (gui s))) /\
                 heap s' = heap s ++ [set_rom_data (Some B) EmulatorCore.fresh]) \/
      (gui s' = set_emulator_core (Some (length (heap s))) (gui s) /\
       heap s' = heap s ++ [EmulatorCore.fresh]))).
Proof.
  intros s'. destruct (decide (path = EmptyString)) as [->|Hp]; [by left|right].
  destruct (read_file env (clock s) path) as [r|r|B] eqn:Hf.
  - destruct (gui_load_rom_fails env s path r Hp) as (Hg & Hh & Hq & Ht); [by rewrite Hf|].
    eexists. split; [|split; [exact Ht | split; [exact Hq | by right]]]. reflexivity.
  - destruct (gui_load_rom_fails env s path r Hp) as (Hg & Hh & Hq & Ht); [by rewrite Hf|].
    eexists. split; [|split; [exact Ht | split; [exact Hq | by right]]]. reflexivity.
  - destruct (gui_load_rom_succeeds env s path B Hp Hf) as (Hg & Hh & Hq & Ht).
    eexists. split; [|split; [exact Ht | split; [exact Hq | left; by exists B]]]. reflexivity.
Qed.

Lemma text_of_snoc l r : text_of (l ++ [r]) = text_of l +:+ snd r +:+ newline.
Proof. unfold text_of. by rewrite fold_left_app. Qed.

Lemma last_started_length (ts ts' : list Thread) :
  length ts = length ts' -> last_started ts = last_started ts'.
Proof. destruct ts, ts'; simpl; intros H; try discriminate; [reflexivity | by inversion H]. Qed.

Lemma last_started_snoc ts th : last_started (ts ++ [th]) = Some (length ts).
Proof.
  destruct ts as [|t ts]; [reflexivity|]. simpl. rewrite length_app. simpl.
  f_equal. lia.
Qed.

(** [check_queue] seen from the controller: it empties the queue, keeps
    buttons, references, store and threads, and logs through [log]. *)
Lemma check_queue_keeps fuel : forall s s',
  EmulatorGUI.check_queue fuel s = Some s' ->
  queue s' = [] /\ heap s' = heap s /\ threads s' = threads s /\
  emulator_core (gui s') = emulator_core (gui s) /\
  emulator_thread (gui s') = emulator_thread (gui s) /\
  start_button (gui s') = start_button (gui s) /\
  stop_button (gui s') = stop_button (gui s) /\
  (log_text (gui s) = text_of (log_file (gui s)) ->
   log_text (gui s') = text_of (log_file (gui s'))).
Proof.
  induction fuel as [|fuel IH]; intros s s' H; [discriminate|].
  simpl in H. unfold queue_get_nowait in H.
  destruct (queue s) as [|m q] eqn:Hq.
  - inversion H; subst. by rewrite Hq.
  - apply IH in H as (H1 & H2 & H3 & H4 & H5 & H6 & H7 & H8).
    destruct m as [ty content]. unfold EmulatorGUI.handle_message in *.
    destruct (String.eqb ty "log"); [|destruct (String.eqb ty "error")];
      simpl in *; repeat split; try assumption;
      intros Hm; apply H8; rewrite ?text_of_snoc, ?Hm; reflexivity.
Qed.

(** ** The controller's invariant *)

Lemma sys_ok_boot : sys_ok boot.
Proof.
  unfold sys_ok. simpl. split; [by left|]. split; [by intros [H|H]|].
  split; [discriminate|]. split; [discriminate|]. by repeat split.
Qed.

Lemma sys_ok_set_cur a s : sys_ok s -> sys_ok (set_cur a s).
Proof. by unfold sys_ok. Qed.

Lemma threads_valid_grow (ts : list Thread) n m :
  n <= m -> Forall (fun th => t_core th < n) ts -> Forall (fun th => t_core th < m) ts.
Proof.
  intros Hnm H. eapply Forall_impl; [exact H|]. intros th Hth. simpl in Hth. lia.
Qed.

Lemma sys_ok_load env path s :
  sys_ok s -> sys_ok (on_ui (EmulatorGUI.load_rom env path) s).
Proof.
  intros Hok. pose proof Hok as (B1 & B2 & B3 & R1 & R2 & T & Q & L).
  destruct (gui_load_rom_cases env s path)
    as [[_ ->]|(m & Hm & Ht & Hq & [(B & Hg & Hh)|(Hg & Hh)])];
    [by apply sys_ok_set_cur| |]; unfold sys_ok; rewrite Hg, Hh, Hq, Ht; simpl.
  - split; [by right|]. split; [by eauto|]. split; [discriminate|].
    split; [intros c [= <-]; rewrite length_app; simpl; lia|].
    split; [eapply threads_valid_grow; [|exact R2]; rewrite length_app; lia|].
    split; [exact T|]. split; [|exact L].
    rewrite forallb_app, Q. simpl. by rewrite Hm.
  - split; [exact B1|]. split; [by eauto|]. split; [exact B3|].
    split; [intros c [= <-]; rewrite length_app; simpl; lia|].
    split; [eapply threads_valid_grow; [|exact R2]; rewrite length_app; lia|].
    split; [exact T|]. split; [|exact L].
    rewrite forallb_app, Q. simpl. by rewrite Hm.
Qed.

Lemma sys_ok_start s :
  sys_ok s -> sys_ok (on_ui EmulatorGUI.start_emulation s).
Proof.
  intros (B1 & B2 & B3 & R1 & R2 & T & Q & L).
  unfold on_ui, EmulatorGUI.start_emulation, bind. simpl.
  destruct (emulator_core (gui s)) as [c|] eqn:Hc; simpl; unfold sys_ok; simpl;
    rewrite ?Hc; [|by repeat split].
  split; [by left|]. split; [by eauto|]. split; [by destruct (threads s)|].
  split; [exact R1|].
  split; [apply Forall_app; split; [exact R2 | constructor; [by apply R1 | constructor]]|].
  split; [by rewrite last_started_snoc|]. split; [exact Q|].
  by rewrite text_of_snoc, L.
Qed.

Lemma sys_ok_stop s :
  sys_ok s -> sys_ok (on_ui EmulatorGUI.stop_emulation s).
Proof.
  intros (B1 & B2 & B3 & R1 & R2 & T & Q & L).
  unfold on_ui, EmulatorGUI.stop_emulation, bind. simpl.
  destruct (emulator_core (gui s)) as [c|] eqn:Hc; simpl; unfold sys_ok; simpl;
    rewrite ?Hc; [|by repeat split].
  rewrite length_alter.
  split; [by right|]. split; [by eauto|]. split; [discriminate|].
  split; [exact R1|]. split; [exact R2|]. split; [exact T|]. split; [exact Q|].
  by rewrite text_of_snoc, L.
Qed.

Lemma sys_ok_tick fuel s s' :
  sys_ok s -> EmulatorGUI.check_queue fuel (set_cur UiThread s) = Some s' -> sys_ok s'.
Proof.
  intros (B1 & B2 & B3 & R1 & R2 & T & Q & L) H.
  apply check_queue_keeps in H as (Hq & Hh & Ht & Hc & Hth & Hsa & Hso & Hl).
  simpl in *. unfold sys_ok. rewrite Hq, Hh, Ht, Hc, Hth, Hsa, Hso.
  repeat split; try assumption. by apply Hl.
Qed.

Lemma step_thread_frame env tid s :
  let s' := step_thread env tid s in
  gui s' = gui s /\
  t_core <$> threads s' = t_core <$> threads s /\
  length (heap s') = length (heap s) /\
  (forall c, rom_data <$> heap s' !! c = rom_data <$> heap s !! c) /\
  exists q, queue s' = queue s ++ q /\ forallb tag_ok q = true.
Proof.
  unfold step_thread. destruct (threads s !! tid) as [th|] eqn:Hth; simpl.
  - pose proof (run_step_core_step env (t_core th) (t_pc th) (set_cur (Worker tid) s))
      as (Hg & Ht & Hl & Hr & Hq).
    destruct (EmulatorCore.run_step _ _ _ _) as [p' s1]. simpl in *.
    split; [exact Hg|]. split; [|by repeat split].
    rewrite Ht, list_fmap_insert. simpl. apply list_insert_id.
    by rewrite list_lookup_fmap, Hth.
  - repeat split. exists []. by rewrite app_nil_r.
Qed.

Lemma sys_ok_step env tid s : sys_ok s -> sys_ok (step_thread env tid s).
Proof.
  intros (B1 & B2 & B3 & R1 & R2 & T & Q & L).
  destruct (step_thread_frame env tid s) as (Hg & Ht & Hl & _ & q & Hq & Hqt).
  assert (Hlen : length (threads (step_thread env tid s)) = length (threads s)).
  { by rewrite <- (length_fmap t_core), Ht, length_fmap. }
  unfold sys_ok. rewrite Hg, Hl, Hq.
  split; [exact B1|]. split; [exact B2|].
  split; [intros H E; apply (B3 H); destruct (threads s); [reflexivity|];
          rewrite E in Hlen; discriminate|].
  split; [exact R1|].
  split; [apply (Forall_fmap t_core (fun c => c < length (heap s)));
          rewrite Ht; by apply (Forall_fmap t_core (fun c => c < length (heap s)))|].
  split; [by rewrite T; apply last_started_length|].
  split; [by rewrite forallb_app, Q, Hqt | exact L].
Qed.

Lemma sys_ok_dispatch env a s : sys_ok s -> sys_ok (dispatch env a s).
Proof.
  intros Hok. destruct a as [answer| | | |tid]; unfold dispatch.
  - by apply sys_ok_load.
  - destruct (start_button (gui s)); [by apply sys_ok_start | exact Hok].
  - destruct (stop_button (gui s)); [by apply sys_ok_stop | exact Hok].
  - match goal with |- context [EmulatorGUI.check_queue ?f ?x] =>
      destruct (EmulatorGUI.check_queue f x) as [s'|] eqn:Hq; [|exact Hok] end.
    by eapply sys_ok_tick.
  - by apply sys_ok_step.
Qed.

Lemma sys_ok_exec env sched : forall s, sys_ok s -> sys_ok (exec env sched s).
Proof.
  induction sched as [|a sched IH]; intros s Hs; [exact Hs|].
  simpl. by apply IH, sys_ok_dispatch.
Qed.

(** ** Methods of the core when no foreign call raises *)

Lemma no_fault_split env t a b :
  no_fault env t (a + b) -> no_fault env t a /\ no_fault env (t + a) b.
Proof.
  intros H. split; intros k Hk.
  - apply H. lia.
  - replace (k + (t + a)) with ((k + a) + t) by lia. apply H. lia.
Qed.

Lemma no_fault_weaken env t n m : m <= n -> no_fault env t n -> no_fault env t m.
Proof. intros Hle H k Hk. apply H. lia. Qed.

Lemma alter_set_running_twice b self (h : list CoreObj) :
  alter (set_running b) self (alter (set_running b) self h)
  = alter (set_running b) self h.
Proof.
  rewrite list_alter_alter_eq. by apply list_alter_ext.
Qed.

Lemma poll_loop_spec env self evs : forall s,
  no_fault env (clock s) (S (length evs)) ->
  exists s',
    EmulatorCore.poll_loop env self evs s = (Ret tt, s') /\
    heap s' = (if quit_requested evs
               then alter (set_running false) self (heap s) else heap s) /\
    clock s' = clock s + S (length evs) /\
    queue s' = queue s /\ gui s' = gui s /\ threads s' = threads s /\
    cur s' = cur s /\
    trace s' = trace s ++ map (pair (cur s))
                 (repeat (OCall Call_SDL_PollEvent) (S (length evs))).
Proof.
  induction evs as [|ty rest IH]; intros s Hnf.
  - unfold EmulatorCore.poll_loop, bind, ffi, ret. no_fault_at Hnf 0.
    eexists. split; [reflexivity|]. simpl. repeat split; lia.
  - cbn [EmulatorCore.poll_loop]. unfold bind at 1. unfold ffi at 1.
    no_fault_at Hnf 0.
    set (s1 := set_clock (S (clock s)) (set_trace (trace s ++ [(cur s, OCall Call_SDL_PollEvent)]) s)).
    assert (Hnf1 : forall s2, clock s2 = clock s1 ->
              no_fault env (clock s2) (S (length rest))).
    { intros s2 E k Hk. rewrite E. simpl.
      replace (k + S (clock s)) with (S k + clock s) by lia. apply Hnf. simpl. lia. }
    unfold bind at 1. cbn [quit_requested existsb].
    destruct (Z.eqb ty SDL_QUIT); simpl orb.
    + unfold update_core at 1, modify.
      destruct (IH (set_heap (alter (set_running false) self (heap s1)) s1))
        as (s' & Hr & Hh & Hc & Hq & Hg & Ht & Hcu & Htr); [by apply Hnf1|].
      exists s'. split; [exact Hr|]. rewrite Hh, Hc, Hq, Hg, Ht, Hcu, Htr. simpl.
      split; [by destruct (quit_requested rest); rewrite ?alter_set_running_twice|].
      split; [lia|]. repeat split. by rewrite <- app_assoc.
    + unfold ret at 1.
      destruct (IH s1) as (s' & Hr & Hh & Hc & Hq & Hg & Ht & Hcu & Htr); [by apply Hnf1|].
      exists s'. split; [exact Hr|]. rewrite Hh, Hc, Hq, Hg, Ht, Hcu, Htr. simpl.
      split; [reflexivity|]. split; [lia|]. repeat split. by rewrite <- app_assoc.
Qed.

Lemma process_input_spec env self s :
  let evs := pending_events env (clock s) in
  no_fault env (clock s) (S (length evs)) ->
  exists s',
    EmulatorCore.process_input env self s = (Ret tt, s') /\
    heap s' = (if quit_requested evs
               then alter (set_running false) self (heap s) else heap s) /\
    clock s' = clock s + S (length evs) /\
    queue s' = queue s /\ gui s' = gui s /\ threads s' = threads s /\
    cur s' = cur s /\
    trace s' = trace s ++ map (pair (cur s))
                 (OEnter m_process_input
                  :: repeat (OCall Call_SDL_PollEvent) (S (length evs))).
Proof.
  intros evs Hnf. unfold EmulatorCore.process_input. rewrite bind_emit.
  unfold bind, get_state.
  destruct (poll_loop_spec env self evs
              (set_trace (trace s ++ [(cur s, OEnter m_process_input)]) s) Hnf)
    as (s' & Hr & Hh & Hc & Hq & Hg & Ht & Hcu & Htr).
  exists s'. split; [exact Hr|]. rewrite Hh, Hc, Hq, Hg, Ht, Hcu, Htr. simpl.
  repeat split. by rewrite <- app_assoc.
Qed.

Lemma render_frame_spec env self s c :
  heap s !! self = Some c ->
  no_fault env (clock s) 2 ->
  exists s',
    EmulatorCore.render_frame env self s = (Ret tt, s') /\
    heap s' = heap s /\ clock s' = clock s + 2 /\
    queue s' = queue s /\ gui s' = gui s /\ threads s' = threads s /\
    cur s' = cur s /\
    trace s' = trace s ++ map (pair (cur s))
                 [OEnter m_render_frame;
                  OCall (Call_SDL_RenderClear (renderer c));
                  OCall (Call_SDL_RenderPresent (renderer c))].
Proof.
  intros Hc Hnf.
  unfold EmulatorCore.render_frame, bind, emit, modify, get_core, ffi. simpl.
  rewrite Hc. simpl. no_fault_at Hnf 0. simpl. rewrite Hc. simpl.
  no_fault_at Hnf 1. simpl.
  eexists. split; [reflexivity|]. simpl. repeat split; [lia|].
  by rewrite <- !app_assoc.
Qed.

Lemma shutdown_keeps_heap env self s :
  heap (snd (EmulatorCore.shutdown env self s)) = heap s.
Proof.
  unfold EmulatorCore.shutdown, bind, emit, modify, get_core, ffi, ret. simpl.
  destruct (heap s !! self) as [c|] eqn:Hc; simpl; [|reflexivity].
  destruct (truthy (renderer c)); simpl.
  - destruct (ffi_fault env (clock s)); simpl; [reflexivity|].
    rewrite Hc. simpl. destruct (truthy (window c)); simpl.
    + destruct (ffi_fault env (S (clock s))); simpl; [reflexivity|].
      by destruct (ffi_fault env (S (S (clock s)))).
    + by destruct (ffi_fault env (S (clock s))).
  - rewrite Hc. simpl. destruct (truthy (window c)); simpl.
    + destruct (ffi_fault env (clock s)); simpl; [reflexivity|].
      by destruct (ffi_fault env (S (clock s))).
    + by destruct (ffi_fault env (clock s)).
Qed.

Lemma shutdown_returns env self s c :
  heap s !! self = Some c ->
  no_fault env (clock s) 3 ->
  exists s',
    EmulatorCore.shutdown env self s = (Ret tt, s') /\
    heap s' = heap s /\ queue s' = queue s /\
    trace s' = trace s ++ map (pair (cur s)) (OEnter m_shutdown :: releases c).
Proof.
  intros Hc Hnf.
  unfold EmulatorCore.shutdown, releases, bind, emit, modify, get_core, ffi, ret. simpl.
  rewrite Hc. simpl.
  destruct (truthy (renderer c)); simpl.
  - no_fault_at Hnf 0. simpl. rewrite Hc. simpl.
    destruct (truthy (window c)); simpl.
    + no_fault_at Hnf 1. simpl. no_fault_at Hnf 2.
      eexists. split; [reflexivity|]. simpl. repeat split. by rewrite <- !app_assoc.
    + no_fault_at Hnf 1.
      eexists. split; [reflexivity|]. simpl. repeat split. by rewrite <- !app_assoc.
  - rewrite Hc. simpl. destruct (truthy (window c)); simpl.
    + no_fault_at Hnf 0. simpl. no_fault_at Hnf 1.
      eexists. split; [reflexivity|]. simpl. repeat split. by rewrite <- !app_assoc.
    + no_fault_at Hnf 0.
      eexists. split; [reflexivity|]. simpl. repeat split. by rewrite <- !app_assoc.
Qed.

Lemma guarded_ret (m : M unit) next s s' :
  m s = (Ret tt, s') -> EmulatorCore.guarded m next s = (next, s').
Proof. intros H. unfold EmulatorCore.guarded. by rewrite H. Qed.

(** ** One statement of a thread, seen from the program *)

Lemma step_thread_at env tid s th :
  threads s !! tid = Some th ->
  let r := EmulatorCore.run_step env (t_core th) (t_pc th) (set_cur (Worker tid) s) in
  threads (step_thread env tid s) !! tid
    = Some {| t_core := t_core th; t_pc := fst r |} /\
  heap (step_thread env tid s) = heap (snd r) /\
  queue (step_thread env tid s) = queue (snd r) /\
  gui (step_thread env tid s) = gui (snd r) /\
  clock (step_thread env tid s) = clock (snd r) /\
  trace (step_thread env tid s) = trace (snd r).
Proof.
  intros Hth r. unfold step_thread. rewrite Hth. fold r.
  pose proof (run_step_core_step env (t_core th) (t_pc th) (set_cur (Worker tid) s))
    as (_ & Ht & _). fold r in Ht.
  destruct r as [p' s1]. simpl in *. split; [|by repeat split].
  apply list_lookup_insert_eq. rewrite Ht. by eapply lookup_lt_Some.
Qed.

(** ** What every action leaves of a core *)

Lemma rom_kept_dispatch env a s c o :
  heap s !! c = Some o ->
  exists o', heap (dispatch env a s) !! c = Some o' /\ rom_data o' = rom_data o.
Proof.
  intros Ho. destruct a as [answer| | | |tid]; unfold dispatch.
  - destruct (gui_load_rom_cases env s answer) as [[_ ->]|(m & _ & _ & _ & H)].
    + by exists o.
    + exists o. split; [|reflexivity].
      destruct H as [(B & _ & ->)|(_ & ->)]; by apply lookup_app_l_Some.
  - destruct (start_button (gui s)); [|by exists o].
    unfold on_ui, EmulatorGUI.start_emulation, bind, get_state. simpl.
    destruct (emulator_core (gui s)); simpl; by exists o.
  - destruct (stop_button (gui s)); [|by exists o].
    unfold on_ui, EmulatorGUI.stop_emulation, bind, get_state. simpl.
    destruct (emulator_core (gui s)) as [c0|]; simpl; [|by exists o].
    destruct (decide (c0 = c)) as [->|Hne].
    + exists (set_running false o). by rewrite list_lookup_alter_eq, Ho.
    + exists o. by rewrite list_lookup_alter_ne.
  - match goal with |- context [EmulatorGUI.check_queue ?f ?x] =>
      destruct (EmulatorGUI.check_queue f x) as [s'|] eqn:Hq; [|by exists o] end.
    apply check_queue_keeps in Hq as (_ & Hh & _). rewrite Hh. by exists o.
  - destruct (step_thread_frame env tid s) as (_ & _ & _ & Hr & _).
    specialize (Hr c). rewrite Ho in Hr. simpl in Hr.
    destruct (heap (step_thread env tid s) !! c) as [o'|]; [|discriminate].
    exists o'. split; [reflexivity|]. by inversion Hr.
Qed.

Lemma rendered_length q :
  forallb tag_ok q = true -> length (flat_map rendered q) = length q.
Proof.
  induction q as [|m q IH]; [reflexivity|]. simpl. intros H.
  apply andb_prop in H as [Hm Hq]. rewrite length_app, (IH Hq).
  unfold tag_ok in Hm. unfold rendered.
  destruct (String.eqb (fst m) "log"); [reflexivity|].
  destruct (String.eqb (fst m) "error"); [reflexivity | discriminate].
Qed.

(** ** The loop of [run] while nothing ends it *)

Lemma loop_step_stays env self c p s :
  (forall t, ffi_fault env t = None) ->
  (forall t, quit_requested (pending_events env t) = false) ->
  running c = true ->
  in_loop {| t_core := self; t_pc := p |} = true ->
  heap s !! self = Some c ->
  in_loop {| t_core := self; t_pc := fst (EmulatorCore.run_step env self p s) |} = true /\
  heap (snd (EmulatorCore.run_step env self p s)) = heap s /\
  queue (snd (EmulatorCore.run_step env self p s)) = queue s.
Proof.
  intros Hf Hq Hrun Hp Hc.
  assert (Hnf : forall t n, no_fault env t n) by (intros t n k _; apply Hf).
  destruct p; try discriminate; cbn [EmulatorCore.run_step].
  - unfold get_core. rewrite Hc, Hrun. by simpl.
  - destruct (process_input_spec env self s (Hnf _ _))
      as (s' & Hr & Hh & _ & Hqu & _).
    rewrite (guarded_ret _ _ _ _ Hr). simpl. rewrite Hq in Hh. by repeat split.
  - unfold EmulatorCore.guarded, EmulatorCore.execute_frame, emit, modify. by simpl.
  - destruct (render_frame_spec env self s c Hc (Hnf _ _))
      as (s' & Hr & Hh & _ & Hqu & _).
    rewrite (guarded_ret _ _ _ _ Hr). simpl. by repeat split.
Qed.

Lemma loop_goes_on env self c :
  (forall t, ffi_fault env t = None) ->
  (forall t, quit_requested (pending_events env t) = false) ->
  running c = true ->
  forall fuel p s,
    in_loop {| t_core := self; t_pc := p |} = true ->
    heap s !! self = Some c ->
    EmulatorCore.run_from env fuel self p s = None.
Proof.
  intros Hf Hq Hr. induction fuel as [|fuel IH]; intros p s Hp Hc.
  - by destruct p.
  - destruct (loop_step_stays env self c p s Hf Hq Hr Hp Hc) as (Hp' & Hh & _).
    assert (E : EmulatorCore.run_from env (S fuel) self p s
                = EmulatorCore.run_from env fuel self
                    (fst (EmulatorCore.run_step env self p s))
                    (snd (EmulatorCore.run_step env self p s))).
    { destruct p; try discriminate; cbn [EmulatorCore.run_from];
        by destruct (EmulatorCore.run_step env self _ s). }
    rewrite E. apply IH; [exact Hp' | by rewrite Hh].
Qed.

(** ** [stop_emulation] on a controller that holds a core *)

Lemma stop_emulation_effect s c :
  emulator_core (gui s) = Some c ->
  heap (on_ui EmulatorGUI.stop_emulation s) = alter (set_running false) c (heap s) /\
  threads (on_ui EmulatorGUI.stop_emulation s) = threads s /\
  queue (on_ui EmulatorGUI.stop_emulation s) = queue s.
Proof.
  intros Hc. unfold on_ui, EmulatorGUI.stop_emulation, bind, get_state. simpl.
  rewrite Hc. by simpl.
Qed.

(** ** What the program writes to the log *)

Lemma string_app_assoc (a b c : string) : (a +:+ b) +:+ c = a +:+ (b +:+ c).
Proof.
  induction a as [|ch a IH]; [reflexivity|].
  change (String ch ((a +:+ b) +:+ c) = String ch (a +:+ (b +:+ c))). by rewrite IH.
Qed.

Lemma text_of_from acc l :
  fold_left (fun t r => t +:+ snd r +:+ newline) l acc = acc +:+ text_of l.
Proof.
  revert acc. induction l as [|r l IH]; intros acc.
  - by rewrite append_empty_r.
  - unfold text_of. simpl. rewrite (IH (acc +:+ snd r +:+ newline)).
    rewrite (IH (EmptyString +:+ snd r +:+ newline)).
    change (EmptyString +:+ snd r +:+ newline) with (snd r +:+ newline).
    by rewrite string_app_assoc.
Qed.

Lemma text_of_app l1 l2 : text_of (l1 ++ l2) = text_of l1 +:+ text_of l2.
Proof. unfold text_of at 1. rewrite fold_left_app. apply text_of_from. Qed.

Lemma log_grows_refl s : log_grows s s.
Proof. exists []. by rewrite app_nil_r, append_empty_r. Qed.

Lemma log_grows_keep s s' :
  log_file (gui s') = log_file (gui s) -> log_text (gui s') = log_text (gui s) ->
  log_grows s s'.
Proof. intros F T. exists []. by rewrite F, T, app_nil_r, append_empty_r. Qed.

Lemma log_grows_same s s' : gui s' = gui s -> log_grows s s'.
Proof. intros E. apply log_grows_keep; by rewrite E. Qed.

Lemma log_grows_trans s1 s2 s3 : log_grows s1 s2 -> log_grows s2 s3 -> log_grows s1 s3.
Proof.
  intros (r1 & F1 & T1) (r2 & F2 & T2). exists (r1 ++ r2).
  by rewrite F2, F1, T2, T1, app_assoc, text_of_app, string_app_assoc.
Qed.

Lemma log_grows_log message error s :
  log_grows s (snd (EmulatorGUI.log message error s)).
Proof.
  exists [(if error then ERROR else INFO, message)]. split; [reflexivity|].
  unfold text_of. simpl. reflexivity.
Qed.

Lemma log_grows_check_queue fuel : forall s s',
  EmulatorGUI.check_queue fuel s = Some s' -> log_grows s s'.
Proof.
  induction fuel as [|fuel IH]; intros s s' H; [discriminate|].
  simpl in H. unfold queue_get_nowait in H.
  destruct (queue s) as [|m q] eqn:Hq.
  - inversion H; subst. apply log_grows_refl.
  - apply IH in H. eapply log_grows_trans; [|exact H].
    destruct m as [ty content]. unfold EmulatorGUI.handle_message.
    set (s1 := set_trace _ _).
    apply (log_grows_trans _ s1); [by apply log_grows_same|].
    destruct (String.eqb ty "log"); [apply log_grows_log|].
    destruct (String.eqb ty "error"); [apply log_grows_log | apply log_grows_refl].
Qed.

Lemma log_grows_dispatch env a s : log_grows s (dispatch env a s).
Proof.
  destruct a as [answer| | | |tid]; unfold dispatch.
  - destruct (gui_load_rom_cases env s answer) as [[_ ->]|(m & _ & _ & _ & H)];
      [by apply log_grows_same|].
    apply log_grows_keep; by destruct H as [(B & -> & _)|(-> & _)].
  - destruct (start_button (gui s)); [|apply log_grows_refl].
    unfold on_ui, EmulatorGUI.start_emulation, bind, get_state. simpl.
    destruct (emulator_core (gui s)); simpl; [|by apply log_grows_same].
    exists [(INFO, "Emulation started")]. by split.
  - destruct (stop_button (gui s)); [|apply log_grows_refl].
    unfold on_ui, EmulatorGUI.stop_emulation, bind, get_state. simpl.
    destruct (emulator_core (gui s)); simpl; [|by apply log_grows_same].
    exists [(INFO, "Emulation stopped")]. by split.
  - match goal with |- context [EmulatorGUI.check_queue ?f ?x] =>
      destruct (EmulatorGUI.check_queue f x) as [s'|] eqn:Hq; [|apply log_grows_refl] end.
    apply log_grows_check_queue in Hq. exact Hq.
  - apply log_grows_same. by destruct (step_thread_frame env tid s) as (Hg & _).
Qed.

Lemma log_grows_exec env sched : forall s, log_grows s (exec env sched s).
Proof.
  induction sched as [|a sched IH]; intros s; [apply log_grows_refl|].
  simpl. eapply log_grows_trans; [apply log_grows_dispatch | apply IH].
Qed.

(** ** Every exit of [run] *)

(** [init_video] when [SDL_Init] reports a failure: the two calls it has
    made, and the exception. *)
Lemma init_video_init_fails env s self :
  no_fault env (clock s) 2 ->
  ret_SDL_Init env (clock s) <> 0%Z ->
  exists s1,
    EmulatorCore.init_video env self s
    = (Raise (RuntimeError ("SDL initialization failed: "
                            +:+ ret_SDL_GetError env (S (clock s)))), s1) /\
    heap s1 = heap s /\ queue s1 = queue s /\ cur s1 = cur s /\
    trace s1 = trace s ++ map (pair (cur s))
                 [OEnter m_init_video; OCall Call_SDL_Init; OCall Call_SDL_GetError].
Proof.
  intros Hnf Hrc. unfold EmulatorCore.init_video, bind, emit, modify, ffi. simpl.
  no_fault_at Hnf 0. simpl.
  apply Z.eqb_neq in Hrc. rewrite Hrc. simpl.
  no_fault_at Hnf 1. simpl. eexists. split; [reflexivity|]. simpl.
  repeat split. by rewrite <- !app_assoc.
Qed.

(** From the handler on: the message, then [shutdown], then the return. *)
Lemma run_from_handler env self e s :
  exists r s',
    EmulatorCore.run_from env 2 self (AtExcept e) s = Some (r, s') /\
    queue s' = queue s ++ [("error", str e)] /\
    heap s' = heap s /\
    exists rel,
      trace s' = trace s ++ map (pair (cur s))
                   (OPut ("error", str e) :: OEnter m_shutdown :: rel) /\
      forallb release_obs rel = true.
Proof.
  cbn [EmulatorCore.run_from EmulatorCore.run_step].
  set (s1 := snd (queue_put ("error", str e) s)).
  pose proof (shutdown_keeps_queue env self s1) as Hq.
  pose proof (shutdown_keeps_heap env self s1) as Hh.
  destruct (shutdown_shape env self s1) as (_ & _ & rel & Ht & Hrel).
  assert (E : exists r, EmulatorCore.shutdown env self s1
                        = (r, snd (EmulatorCore.shutdown env self s1)))
    by (destruct (EmulatorCore.shutdown env self s1); by eexists).
  destruct E as [o E]. rewrite E.
  exists (match o with Ret _ => None | Raise e' => Some e' end),
         (snd (EmulatorCore.shutdown env self s1)).
  split; [by destruct o|]. split; [by rewrite Hq|]. split; [by rewrite Hh|].
  exists rel. split; [|exact Hrel]. rewrite Ht. subst s1. simpl.
  by rewrite <- !app_assoc.
Qed.

(** A statement of the [try] block that raises is followed by the
    handler, [shutdown] and the return. *)
Lemma run_from_raise env self p m s e s1 :
  try_call env self p = Some m ->
  m s = (Raise e, s1) ->
  exists r s',
    EmulatorCore.run_from env 3 self p s = Some (r, s') /\
    queue s' = queue s1 ++ [("error", str e)] /\
    heap s' = heap s1 /\
    exists rel,
      trace s' = trace s1 ++ map (pair (cur s1))
                   (OCaught e :: OPut ("error", str e) :: OEnter m_shutdown :: rel) /\
      forallb release_obs rel = true.
Proof.
  intros Hp Hm.
  assert (E : EmulatorCore.run_from env 3 self p s
              = EmulatorCore.run_from env 2 self (AtExcept e)
                  (snd (emit (OCaught e) s1))).
  { destruct p; try discriminate; inversion Hp; subst m;
      cbn [EmulatorCore.run_from EmulatorCore.run_step];
      unfold EmulatorCore.guarded; by rewrite Hm. }
  destruct (run_from_handler env self e (snd (emit (OCaught e) s1)))
    as (r & s' & Hr & Hq & Hh & rel & Ht & Hrel).
  exists r, s'. rewrite E. split; [exact Hr|]. split; [exact Hq|]. split; [exact Hh|].
  exists rel. split; [|exact Hrel]. rewrite Ht. simpl. by rewrite <- app_assoc.
Qed.

(** A foreign call that raises makes the statement that issues it raise:
    each of [init_video], [process_input] and [render_frame] starts with
    a foreign call. *)
Lemma first_call_faults env self p m s msg :
  try_call env self p = Some m ->
  p <> AtExecuteFrame ->
  (p = AtRenderFrame -> is_Some (heap s !! self)) ->
  ffi_fault env (clock s) = Some msg ->
  exists s1, m s = (Raise (ForeignError msg), s1) /\
             queue s1 = queue s /\ heap s1 = heap s.
Proof.
  intros Hp Hne Hc Hf. destruct p; try discriminate; inversion Hp; subst m.
  - unfold EmulatorCore.init_video, bind, emit, modify, ffi. simpl. rewrite Hf.
    by eexists.
  - unfold EmulatorCore.process_input. rewrite bind_emit. unfold bind, get_state.
    destruct (pending_events env _) as [|ty rest]; cbn [EmulatorCore.poll_loop];
      unfold bind, ffi; simpl; rewrite Hf; by eexists.
  - contradiction.
  - destruct (Hc eq_refl) as [c Hcore].
    unfold EmulatorCore.render_frame, bind, emit, modify, get_core, ffi. simpl.
    rewrite Hcore. simpl. rewrite Hf. by eexists.
Qed.

(** A thread that stands at the handler or at the [finally] clause, in
    the running program. *)
Lemma step_thread_raise env tid self p m s e s1 :
  threads s !! tid = Some {| t_core := self; t_pc := p |} ->
  try_call env self p = Some m ->
  m (set_cur (Worker tid) s) = (Raise e, s1) ->
  threads (step_thread env tid s) !! tid
    = Some {| t_core := self; t_pc := AtExcept e |} /\
  queue (step_thread env tid s) = queue s1 /\
  trace (step_thread env tid s) = trace s1 ++ [(cur s1, OCaught e)].
Proof.
  intros Hth Hp Hm.
  destruct (step_thread_at env tid s _ Hth) as (Ht & _ & Hq & _ & _ & Htr).
  cbn [t_core t_pc] in Ht, Hq, Htr.
  assert (E : EmulatorCore.run_step env self p (set_cur (Worker tid) s)
              = (AtExcept e, snd (emit (OCaught e) s1))).
  { destruct p; try discriminate; inversion Hp; subst m;
      cbn [EmulatorCore.run_step]; unfold EmulatorCore.guarded; by rewrite Hm. }
  rewrite E in Ht, Hq, Htr. by repeat split.
Qed.

Lemma step_thread_handler env tid self e s :
  threads s !! tid = Some {| t_core := self; t_pc := AtExcept e |} ->
  threads (step_thread env tid s) !! tid
    = Some {| t_core := self; t_pc := AtFinally |} /\
  queue (step_thread env tid s) = queue s ++ [("error", str e)] /\
  trace (step_thread env tid s) = trace s ++ [(Worker tid, OPut ("error", str e))].
Proof.
  intros Hth.
  destruct (step_thread_at env tid s _ Hth) as (Ht & _ & Hq & _ & _ & Htr).
  by repeat split.
Qed.

Lemma step_thread_finally env tid self s :
  threads s !! tid = Some {| t_core := self; t_pc := AtFinally |} ->
  exists r rel,
    threads (step_thread env tid s) !! tid
      = Some {| t_core := self; t_pc := Returned r |} /\
    queue (step_thread env tid s) = queue s /\
    trace (step_thread env tid s)
      = trace s ++ map (pair (Worker tid)) (OEnter m_shutdown :: rel) /\
    forallb release_obs rel = true.
Proof.
  intros Hth.
  destruct (step_thread_at env tid s _ Hth) as (Ht & _ & Hq & _ & _ & Htr).
  cbn [t_core t_pc EmulatorCore.run_step] in Ht, Hq, Htr.
  pose proof (shutdown_keeps_queue env self (set_cur (Worker tid) s)) as Hk.
  destruct (shutdown_shape env self (set_cur (Worker tid) s)) as (_ & _ & rel & Hs & Hrel).
  destruct (EmulatorCore.shutdown env self (set_cur (Worker tid) s)) as [[[]|e'] s2];
    simpl in *; eexists _, rel; by rewrite Ht, Hq, Htr, Hk, Hs.
Qed.

(** C1: every invocation of [run] enters [shutdown] exactly once before
    it returns, on every exit path, and a fault is turned into exactly
    one Error message before [shutdown] runs.

    - In every execution of the program, whatever the environment
      answers and however the controller and the threads interleave, a
      thread whose [run] has returned has entered [shutdown] exactly
      once; before that it observed the [try] body, then either nothing
      or one caught exception immediately followed by the message
      [('error', str(e))].
    - When a statement of the [try] block - [init_video] or a call of
      the loop body - raises [e], [run] returns within three statements:
      it catches [e], puts exactly [('error', str(e))], enters
      [shutdown], and does nothing else but releases; in particular no
      further statement of the [try] block runs, so a failing
      [init_video] never reaches the loop.  The same holds statement by
      statement for a thread of the running program, whatever happens
      between its statements.
    - A foreign call that raises makes the statement that issues it
      raise, and a non-zero answer of [SDL_Init] makes [init_video]
      raise after [SDL_GetError]: the whole [run] is then the two calls,
      the caught exception, the message and [shutdown].
    - When the run flag reads [False] at the loop test, [run] returns
      within two statements: [shutdown] is entered once and no message
      is put. *)
Theorem C1_run_calls_shutdown_exactly_once env :
  (forall sched tid th r,
     threads (exec env sched boot) !! tid = Some th ->
     t_pc th = Returned r ->
     let done := by_actor (Worker tid) (trace (exec env sched boot)) in
     count is_shutdown done = 1 /\
     count is_put done <= 1 /\
     exists body h rel,
       done = body ++ h ++ OEnter m_shutdown :: rel /\
       forallb body_obs body = true /\
       handled h /\
       forallb release_obs rel = true) /\
  (forall self p m s e s1,
     try_call env self p = Some m ->
     m s = (Raise e, s1) ->
     exists r s',
       EmulatorCore.run_from env 3 self p s = Some (r, s') /\
       queue s' = queue s1 ++ [("error", str e)] /\
       heap s' = heap s1 /\
       exists rel,
         trace s' = trace s1 ++ map (pair (cur s1))
                      (OCaught e :: OPut ("error", str e) :: OEnter m_shutdown :: rel) /\
         forallb release_obs rel = true) /\
  (forall tid self p m s e s1,
     threads s !! tid = Some {| t_core := self; t_pc := p |} ->
     try_call env self p = Some m ->
     m (set_cur (Worker tid) s) = (Raise e, s1) ->
     threads (step_thread env tid s) !! tid
       = Some {| t_core := self; t_pc := AtExcept e |} /\
     queue (step_thread env tid s) = queue s1 /\
     trace (step_thread env tid s) = trace s1 ++ [(cur s1, OCaught e)]) /\
  (forall tid self e s,
     threads s !! tid = Some {| t_core := self; t_pc := AtExcept e |} ->
     threads (step_thread env tid s) !! tid
       = Some {| t_core := self; t_pc := AtFinally |} /\
     queue (step_thread env tid s) = queue s ++ [("error", str e)] /\
     trace (step_thread env tid s) = trace s ++ [(Worker tid, OPut ("error", str e))]) /\
  (forall tid self s,
     threads s !! tid = Some {| t_core := self; t_pc := AtFinally |} ->
     exists r rel,
       threads (step_thread env tid s) !! tid
         = Some {| t_core := self; t_pc := Returned r |} /\
       queue (step_thread env tid s) = queue s /\
       trace (step_thread env tid s)
         = trace s ++ map (pair (Worker tid)) (OEnter m_shutdown :: rel) /\
       forallb release_obs rel = true) /\
  (forall self p m s msg,
     try_call env self p = Some m ->
     p <> AtExecuteFrame ->
     (p = AtRenderFrame -> is_Some (heap s !! self)) ->
     ffi_fault env (clock s) = Some msg ->
     exists s1, m s = (Raise (ForeignError msg), s1) /\
                queue s1 = queue s /\ heap s1 = heap s) /\
  (forall self s,
     no_fault env (clock s) 2 ->
     ret_SDL_Init env (clock s) <> 0%Z ->
     let e := RuntimeError ("SDL initialization failed: "
                            +:+ ret_SDL_GetError env (S (clock s))) in
     exists r s',
       EmulatorCore.run env 4 self s = Some (r, s') /\
       queue s' = queue s ++ [("error", "SDL initialization failed: "
                                        +:+ ret_SDL_GetError env (S (clock s)))] /\
       exists rel,
         trace s' = trace s ++ map (pair (cur s))
                      (OEnter m_init_video :: OCall Call_SDL_Init
                       :: OCall Call_SDL_GetError
                       :: OCaught e :: OPut ("error", str e)
                       :: OEnter m_shutdown :: rel) /\
         forallb release_obs rel = true) /\
  (forall self c s,
     heap s !! self = Some c ->
     running c = false ->
     exists r s',
       EmulatorCore.run_from env 2 self AtLoopTest s = Some (r, s') /\
       queue s' = queue s /\
       heap s' = heap s /\
       exists rel,
         trace s' = trace s ++ map (pair (cur s)) (OEnter m_shutdown :: rel) /\
         forallb release_obs rel = true).
Proof.
  split; [|split; [|split; [|split; [|split; [|split; [|split]]]]]].
  - intros sched tid th r Hth Hpc done.
    destruct (threads_ok_exec env sched boot threads_ok_boot) as [Hinv _].
    specialize (Hinv tid th Hth). rewrite Hpc in Hinv. fold done in Hinv.
    destruct (run_inv_returned_counts r done Hinv) as (H1 & H2 & _).
    split; [exact H1|]. split; [exact H2|].
    inversion Hinv as [p b Hp|?|?|r' body h rel Hb Hh Hr]; subst; [discriminate|].
    by exists body, h, rel.
  - apply run_from_raise.
  - apply step_thread_raise.
  - apply step_thread_handler.
  - apply step_thread_finally.
  - apply first_call_faults.
  - intros self s Hnf Hrc e.
    set (s0 := snd (update_core self (set_running true) s)).
    destruct (init_video_init_fails env s0 self Hnf Hrc)
      as (s1 & Hr & _ & Hq1 & Hc1 & Ht1).
    destruct (run_from_raise env self AtInitVideo _ s0 _ s1 eq_refl Hr)
      as (r & s' & Hrun & Hq & _ & rel & Ht & Hrel).
    exists r, s'. split; [exact Hrun|]. split; [by rewrite Hq, Hq1|].
    exists rel. split; [|exact Hrel]. rewrite Ht, Ht1, Hc1. simpl.
    by rewrite <- !app_assoc.
  - intros self c s Hc Hrun.
    cbn [EmulatorCore.run_from EmulatorCore.run_step].
    unfold get_core. rewrite Hc, Hrun. simpl.
    pose proof (shutdown_keeps_queue env self s) as Hq.
    pose proof (shutdown_keeps_heap env self s) as Hh.
    destruct (shutdown_shape env self s) as (_ & _ & rel & Ht & Hrel).
    destruct (EmulatorCore.shutdown env self s) as [[[]|e'] s2]; simpl in *;
      eexists _, s2; (split; [reflexivity|]); (split; [exact Hq|]);
      (split; [exact Hh|]); by exists rel.
Qed.

(** * Further properties of the program *)

(** ** What holds in every state the program reaches *)

(** X1: in every state the program reaches from its start, whatever the
    clicks, timer ticks and thread interleaving, the Start and Stop
    buttons are never enabled together; whenever one of them is enabled
    the controller holds a core object, so the [if self.emulator_core]
    test of a delivered click never fails; and Stop is enabled only
    after a thread was started. *)
Theorem X1_buttons_follow_the_controller env sched :
  let s := exec env sched boot in
  (start_button (gui s) = DISABLED \/ stop_button (gui s) = DISABLED) /\
  (start_button (gui s) = NORMAL \/ stop_button (gui s) = NORMAL ->
     is_Some (emulator_core (gui s))) /\
  (stop_button (gui s) = NORMAL -> threads s <> []).
Proof.
  intros s. destruct (sys_ok_exec env sched boot sys_ok_boot) as (B1 & B2 & B3 & _).
  by repeat split.
Qed.

(** X2: the program only ever appends to the log, and to the widget
    and the log file together.  Over any sequence of clicks, timer
    ticks and statements of threads, from any state and whatever the
    widget holds at the start (the code leaves the widget editable), the
    text added to the widget is the messages added to the log file over
    that sequence, in the same order, each followed by a newline. *)
Theorem X2_log_widget_and_file_grow_together env sched s :
  exists recs,
    log_file (gui (exec env sched s)) = log_file (gui s) ++ recs /\
    log_text (gui (exec env sched s)) = log_text (gui s) +:+ text_of recs.
Proof. apply log_grows_exec. Qed.

(** X3: in every state the program reaches, every queued message is
    tagged ['log'] or ['error'], so the next run of [check_queue]
    discards none: it empties the queue and adds exactly one log record
    per queued message. *)
Theorem X3_every_queued_message_is_logged env sched :
  let s := exec env sched boot in
  let s' := dispatch env TimerTick s in
  forallb tag_ok (queue s) = true /\
  queue s' = [] /\
  log_file (gui s') = log_file (gui s) ++ flat_map rendered (queue s) /\
  length (log_file (gui s')) = length (log_file (gui s)) + length (queue s).
Proof.
  intros s s'.
  destruct (sys_ok_exec env sched boot sys_ok_boot) as (_ & _ & _ & _ & _ & _ & Q & _).
  fold s in Q. split; [exact Q|].
  destruct (check_queue_drains (S (length (queue s))) (set_cur UiThread s))
    as (s1 & Hs1 & Hq & _ & Hl); [simpl; lia|].
  assert (E : s' = s1) by (subst s'; unfold dispatch; by rewrite Hs1).
  rewrite E, Hq, Hl. simpl. split; [reflexivity|]. split; [reflexivity|].
  by rewrite length_app, rendered_length.
Qed.

(** X4: in every state the program reaches, [emulator_thread] is [None]
    as long as no thread was started and otherwise designates the
    thread started last; threads started earlier are referenced by
    nothing, whether they have returned or not. *)
Theorem X4_controller_remembers_last_thread env sched :
  let s := exec env sched boot in
  emulator_thread (gui s) = last_started (threads s).
Proof.
  intros s. by destruct (sys_ok_exec env sched boot sys_ok_boot) as (_ & _ & _ & _ & _ & T & _).
Qed.

(** X5: a core object that exists is never removed, and its [rom_data]
    is never changed by anything the program does afterwards: clicks,
    timer ticks and the statements of every thread leave it as it is (a
    later load stores its bytes in a new core object). *)
Theorem X5_rom_of_a_core_never_changes env sched : forall s c o,
  heap s !! c = Some o ->
  exists o', heap (exec env sched s) !! c = Some o' /\ rom_data o' = rom_data o.
Proof.
  induction sched as [|a sched IH]; intros s c o Ho; [by exists o|].
  destruct (rom_kept_dispatch env a s c o Ho) as (o1 & Ho1 & Hr1).
  destruct (IH (dispatch env a s) c o1 Ho1) as (o' & Ho' & Hr').
  exists o'. split; [exact Ho'|]. by rewrite Hr'.
Qed.

(** ** The methods of the core *)

(** X6: when no foreign call raises, [process_input] returns after
    polling once more than there are pending events.  If [SDL_QUIT] is
    among them, wherever it stands, the run flag of the core is [False]
    afterwards and its ROM and handles are as they were; otherwise the
    cores are as they were.  It touches no other core and queues
    nothing. *)
Theorem X6_process_input_drains_events env self s :
  let evs := pending_events env (clock s) in
  no_fault env (clock s) (S (length evs)) ->
  exists s',
    EmulatorCore.process_input env self s = (Ret tt, s') /\
    (quit_requested evs = true ->
     forall o, heap s !! self = Some o ->
       exists o', heap s' !! self = Some o' /\
                  running o' = false /\
                  rom_data o' = rom_data o /\
                  window o' = window o /\
                  renderer o' = renderer o) /\
    (quit_requested evs = false -> heap s' = heap s) /\
    (forall other, other <> self -> heap s' !! other = heap s !! other) /\
    queue s' = queue s /\
    trace s' = trace s ++ map (pair (cur s))
                 (OEnter m_process_input
                  :: repeat (OCall Call_SDL_PollEvent) (S (length evs))).
Proof.
  intros evs Hnf.
  destruct (process_input_spec env self s Hnf) as (s' & Hr & Hh & _ & Hq & _ & _ & _ & Ht).
  fold evs in Hh. exists s'. split; [exact Hr|].
  split; [|split; [|split; [|by split]]].
  - intros Hquit o Ho. rewrite Hquit in Hh. exists (set_running false o).
    by rewrite Hh, list_lookup_alter_eq, Ho.
  - intros Hquit. by rewrite Hquit in Hh.
  - intros other Hne. rewrite Hh.
    destruct (quit_requested evs); [by rewrite list_lookup_alter_ne | reflexivity].
Qed.

(** X10: when [SDL_Init] fails, [run] returns within four statements:
    the loop is not entered, the one message
    [('error', "SDL initialization failed: ...")] is queued, and the
    core is left with its run flag [True] and its ROM and handles as
    they were; no other core is touched. *)
Theorem X10_failed_init_is_reported env self s :
  no_fault env (clock s) 2 ->
  ret_SDL_Init env (clock s) <> 0%Z ->
  exists r s',
    EmulatorCore.run env 4 self s = Some (r, s') /\
    queue s' = queue s ++ [("error", "SDL initialization failed: "
                                     +:+ ret_SDL_GetError env (S (clock s)))] /\
    (forall o, heap s !! self = Some o ->
       exists o', heap s' !! self = Some o' /\
                  running o' = true /\
                  rom_data o' = rom_data o /\
                  window o' = window o /\
                  renderer o' = renderer o) /\
    (forall other, other <> self -> heap s' !! other = heap s !! other).
Proof.
  intros Hnf Hrc.
  set (s1 := snd (update_core self (set_running true) s)).
  destruct (init_video_reports_init_failure env s1 self Hnf Hrc) as (s2 & Hr & Hh & Hq).
  unfold EmulatorCore.run. cbn [EmulatorCore.run_from EmulatorCore.run_step].
  fold s1. unfold EmulatorCore.guarded. rewrite Hr.
  cbn [EmulatorCore.run_from EmulatorCore.run_step].
  match goal with |- context [EmulatorCore.shutdown env self ?x] => set (s4 := x) end.
  pose proof (shutdown_keeps_queue env self s4) as Hq5.
  pose proof (shutdown_keeps_heap env self s4) as Hh5.
  assert (Hq4 : queue s4 = queue s ++ [("error", "SDL initialization failed: "
                                     +:+ ret_SDL_GetError env (S (clock s)))]).
  { subst s4. simpl. by rewrite Hq. }
  assert (Hh4 : heap s4 = alter (set_running true) self (heap s)).
  { subst s4. simpl. by rewrite Hh. }
  assert (Hfin : forall s5, queue s5 = queue s4 -> heap s5 = heap s4 ->
    queue s5 = queue s ++ [("error", "SDL initialization failed: "
                                     +:+ ret_SDL_GetError env (S (clock s)))] /\
    (forall o, heap s !! self = Some o ->
       exists o', heap s5 !! self = Some o' /\
                  running o' = true /\
                  rom_data o' = rom_data o /\
                  window o' = window o /\
                  renderer o' = renderer o) /\
    (forall other, other <> self -> heap s5 !! other = heap s !! other)).
  { intros s5 E1 E2. rewrite E1, E2, Hq4, Hh4. split; [reflexivity|]. split.
    - intros o Ho. exists (set_running true o). by rewrite list_lookup_alter_eq, Ho.
    - intros other Hne. by rewrite list_lookup_alter_ne. }
  destruct (EmulatorCore.shutdown env self s4) as [[[]|e'] s5]; simpl in *;
    eexists _, s5; (split; [reflexivity|]); by apply Hfin.
Qed.

(** X11: when the window is closed during a frame and no foreign call
    raises, [run] finishes that frame (the remaining events are still
    polled, the frame is executed and rendered), leaves the loop at the
    next test, shuts down and returns normally; the run flag is then
    [False] and no error was queued. *)
Theorem X11_window_close_ends_run env self s c :
  heap s !! self = Some c ->
  let evs := pending_events env (clock s) in
  quit_requested evs = true ->
  no_fault env (clock s) (S (length evs) + 5) ->
  exists s',
    EmulatorCore.run_from env 5 self AtProcessInput s = Some (None, s') /\
    heap s' = alter (set_running false) self (heap s) /\
    queue s' = queue s /\
    trace s' = trace s ++ map (pair (cur s))
      (OEnter m_process_input
       :: repeat (OCall Call_SDL_PollEvent) (S (length evs))
       ++ [OEnter m_execute_frame; OEnter m_render_frame;
           OCall (Call_SDL_RenderClear (renderer c));
           OCall (Call_SDL_RenderPresent (renderer c));
           OEnter m_shutdown]
       ++ releases c).
Proof.
  intros Hc evs Hquit Hnf.
  apply no_fault_split in Hnf as [Hnf1 Hnf2].
  destruct (process_input_spec env self s Hnf1)
    as (s1 & Hr1 & Hh1 & Hc1 & Hq1 & _ & _ & Hcu1 & Ht1).
  fold evs in Hh1, Hc1, Ht1. rewrite Hquit in Hh1.
  cbn [EmulatorCore.run_from EmulatorCore.run_step].
  rewrite (guarded_ret _ _ _ _ Hr1).
  cbn [EmulatorCore.run_from EmulatorCore.run_step].
  unfold EmulatorCore.guarded at 1, EmulatorCore.execute_frame, emit, modify.
  set (s2 := set_trace (trace s1 ++ [(cur s1, OEnter m_execute_frame)]) s1).
  assert (Hc2 : heap s2 !! self = Some (set_running false c)).
  { subst s2. simpl. by rewrite Hh1, list_lookup_alter_eq, Hc. }
  assert (Hnf3 : no_fault env (clock s2) 2).
  { subst s2. simpl. rewrite Hc1. eapply no_fault_weaken; [|exact Hnf2]. lia. }
  destruct (render_frame_spec env self s2 _ Hc2 Hnf3)
    as (s3 & Hr3 & Hh3 & Hc3 & Hq3 & _ & _ & Hcu3 & Ht3).
  cbn [EmulatorCore.run_from EmulatorCore.run_step].
  rewrite (guarded_ret _ _ _ _ Hr3).
  cbn [EmulatorCore.run_from EmulatorCore.run_step].
  assert (Hc3' : heap s3 !! self = Some (set_running false c)) by (by rewrite Hh3).
  unfold get_core. rewrite Hc3'. simpl running. cbn iota.
  cbn [EmulatorCore.run_from EmulatorCore.run_step].
  assert (Hnf4 : no_fault env (clock s3) 3).
  { rewrite Hc3. subst s2. simpl. rewrite Hc1.
    destruct (no_fault_split env (clock s + S (length evs)) 2 3 Hnf2) as [_ H]. exact H. }
  destruct (shutdown_returns env self s3 _ Hc3' Hnf4) as (s4 & Hr4 & Hh4 & Hq4 & Ht4).
  rewrite Hr4. exists s4. split; [reflexivity|].
  split; [by rewrite Hh4, Hh3; subst s2; simpl|].
  split; [by rewrite Hq4, Hq3; subst s2; simpl|].
  rewrite Ht4, Ht3, Hcu3. subst s2. simpl. rewrite Ht1, Hcu1.
  rewrite <- !app_assoc. simpl. rewrite map_app. simpl.
  by rewrite <- ?app_assoc.
Qed.

(** X12: once [SDL_Init] has succeeded, [run] left to itself does not
    return as long as no foreign call raises and no [SDL_QUIT] event
    arrives: whatever the number of statements it is given, it is still
    in its loop. *)
Theorem X12_run_goes_on_until_stopped env self s c :
  heap s !! self = Some c ->
  ret_SDL_Init env (clock s) = 0%Z ->
  (forall t, ffi_fault env t = None) ->
  (forall t, quit_requested (pending_events env t) = false) ->
  forall fuel, EmulatorCore.run env fuel self s = None.
Proof.
  intros Hc Hrc Hf Hq fuel.
  destruct fuel as [|[|fuel]]; [reflexivity | reflexivity |].
  unfold EmulatorCore.run. cbn [EmulatorCore.run_from EmulatorCore.run_step].
  set (s1 := snd (update_core self (set_running true) s)).
  assert (Hc1 : heap s1 !! self = Some (set_running true c)).
  { subst s1. simpl. by rewrite list_lookup_alter_eq, Hc. }
  destruct (init_video_stores_unchecked env s1 self _ (fun k _ => Hf _) Hrc Hc1)
    as (s2 & Hr & Hc2 & _).
  rewrite (guarded_ret _ _ _ _ Hr).
  by eapply (loop_goes_on env self _ Hf Hq); [| |exact Hc2].
Qed.

(** ** Stop, start and load against a running thread *)

(** X7: a [stop_emulation] that is handled after a thread was started
    but before that thread has executed its first statement has no
    effect on it: [stop_emulation] leaves the run flag [False], the
    first statement of [run] makes it [True] again (ROM and handles as
    they were), and the thread goes on to bring up the video. *)
Theorem X7_stop_before_first_statement_is_lost env s tid c o :
  emulator_core (gui s) = Some c ->
  heap s !! c = Some o ->
  threads s !! tid = Some {| t_core := c; t_pc := AtRunStart |} ->
  let s1 := on_ui EmulatorGUI.stop_emulation s in
  let s' := step_thread env tid s1 in
  (exists o1, heap s1 !! c = Some o1 /\ running o1 = false) /\
  (exists o', heap s' !! c = Some o' /\
              running o' = true /\
              rom_data o' = rom_data o /\
              window o' = window o /\
              renderer o' = renderer o) /\
  threads s' !! tid = Some {| t_core := c; t_pc := AtInitVideo |}.
Proof.
  intros Hc Ho Ht s1 s'.
  destruct (stop_emulation_effect s c Hc) as (Hh & Hth & _). fold s1 in Hh, Hth.
  destruct (step_thread_at env tid s1 {| t_core := c; t_pc := AtRunStart |})
    as (Hp & Hh' & _); [by rewrite Hth|].
  fold s' in Hp, Hh'. split; [|split; [|exact Hp]].
  - exists (set_running false o). by rewrite Hh, list_lookup_alter_eq, Ho.
  - exists (set_running true o). rewrite Hh'. simpl.
    by rewrite Hh, !list_lookup_alter_eq, Ho.
Qed.

(** X8: a [stop_emulation] handled while a thread of the controller's
    core stands at the loop test ends that thread: its next statement
    leaves the loop and the one after runs [shutdown] and returns; the
    run flag stays [False] and the core is otherwise as it was. *)
Theorem X8_stop_ends_loop_at_next_test env s tid c o :
  emulator_core (gui s) = Some c ->
  heap s !! c = Some o ->
  threads s !! tid = Some {| t_core := c; t_pc := AtLoopTest |} ->
  let s' := exec env [Step tid; Step tid] (on_ui EmulatorGUI.stop_emulation s) in
  (exists r, threads s' !! tid = Some {| t_core := c; t_pc := Returned r |}) /\
  heap s' = alter (set_running false) c (heap s).
Proof.
  intros Hc Ho Ht s'.
  destruct (stop_emulation_effect s c Hc) as (Hh & Hth & _).
  set (s1 := on_ui EmulatorGUI.stop_emulation s) in *.
  destruct (step_thread_at env tid s1 {| t_core := c; t_pc := AtLoopTest |})
    as (Hp2 & Hh2 & _); [by rewrite Hth|].
  cbn [t_core t_pc EmulatorCore.run_step] in Hp2, Hh2.
  unfold get_core in Hp2, Hh2. simpl in Hp2, Hh2.
  rewrite Hh, list_lookup_alter_eq, Ho in Hp2, Hh2. simpl in Hp2, Hh2.
  set (s2 := step_thread env tid s1) in *.
  destruct (step_thread_at env tid s2 _ Hp2) as (Hp3 & Hh3 & _).
  cbn [t_core t_pc EmulatorCore.run_step] in Hp3, Hh3.
  pose proof (shutdown_keeps_heap env c (set_cur (Worker tid) s2)) as Hk.
  change s' with (step_thread env tid s2).
  destruct (EmulatorCore.shutdown env c (set_cur (Worker tid) s2)) as [[[]|e] s3];
    simpl in *; (split; [by eexists|]); by rewrite Hh3, Hk, Hh2.
Qed.

(** X9: a load replaces the controller's core before anything else, so
    a [stop_emulation] that follows a load - successful or not - acts
    on the new core only: every core that existed before, the one a
    running thread loops on included, keeps its run flag, and no thread
    is touched. *)
Theorem X9_load_puts_running_core_out_of_reach env s path :
  path <> EmptyString ->
  let s1 := on_ui (EmulatorGUI.load_rom env path) s in
  let s2 := on_ui EmulatorGUI.stop_emulation s1 in
  emulator_core (gui s1) = Some (length (heap s)) /\
  threads s2 = threads s /\
  (forall c, c < length (heap s) -> heap s2 !! c = heap s !! c).
Proof.
  intros Hp s1 s2.
  destruct (gui_load_rom_cases env s path) as [[E _]|(m & _ & Ht & _ & H)];
    [contradiction|]. fold s1 in Ht, H.
  assert (Hg : emulator_core (gui s1) = Some (length (heap s)) /\
               exists x, heap s1 = heap s ++ [x]).
  { destruct H as [(B & -> & ->)|(-> & ->)]; by eauto. }
  destruct Hg as (Hg & x & Hx).
  destruct (stop_emulation_effect s1 _ Hg) as (Hh & Hth & _). fold s2 in Hh, Hth.
  split; [exact Hg|]. split; [by rewrite Hth|].
  intros c Hlt. rewrite Hh, list_lookup_alter_ne, Hx by lia.
  by apply lookup_app_l.
Qed.

(** X13: the controller's [load_rom], for a non-empty path whose file
    is read, makes a new core holding exactly the bytes read the
    controller's core, enables Start and disables Stop - also while a
    thread started earlier is still running - and queues the one
    message [('log', "Loaded ROM: <name>")]; threads and the remembered
    thread are untouched. *)
Theorem X13_successful_load_arms_start env s path B :
  path <> EmptyString ->
  read_file env (clock s) path = Content B ->
  let s' := on_ui (EmulatorGUI.load_rom env path) s in
  emulator_core (gui s') = Some (length (heap s)) /\
  heap s' = heap s ++ [set_rom_data (Some B) EmulatorCore.fresh] /\
  active_rom s' = Some B /\
  start_button (gui s') = NORMAL /\
  stop_button (gui s') = DISABLED /\
  emulator_thread (gui s') = emulator_thread (gui s) /\
  threads s' = threads s /\
  queue s' = queue s ++ [("log", "Loaded ROM: " +:+ path_name path)].
Proof.
  intros Hp Hf s'.
  destruct (gui_load_rom_succeeds env s path B Hp Hf) as (Hg & Hh & Hq & Ht).
  fold s' in Hg, Hh, Hq, Ht. unfold active_rom. rewrite Hg, Hh, Hq, Ht. simpl.
  repeat split. by rewrite list_lookup_middle.
Qed.

(** ** The event channel in a running program *)

(** X14: FIFO delivery across interleavings: in every state the program
    reaches, the messages the controller has taken, followed by those
    still queued, are exactly the messages put so far, in the order of
    the puts, whichever threads put them. *)
Theorem X14_fifo_across_interleavings env sched :
  let s := exec env sched boot in
  msgs_put (trace s) = msgs_got (trace s) ++ queue s.
Proof. apply (fifo_exec env sched boot fifo_boot). Qed.

(** ** The properties at the sample program *)

Lemma X5_rom_of_a_core_never_changes_witness :
  exists o',
    heap (exec env_play [ClickStart; Step 0; ClickLoad missing_path; ClickStop] loaded) !! 0
    = Some o' /\
    rom_data o' = Some rom_bytes.
Proof.
  refine (X5_rom_of_a_core_never_changes env_play
            [ClickStart; Step 0; ClickLoad missing_path; ClickStop]
            loaded 0 core_loaded _).
  vm_compute. reflexivity.
Defined.

Lemma X6_process_input_drains_events_witness :
  running <$> heap closing !! 0 = Some true /\
  exists s' o',
    EmulatorCore.process_input env_quit 0 closing = (Ret tt, s') /\
    heap s' !! 0 = Some o' /\ running o' = false.
Proof.
  split; [vm_compute; reflexivity|].
  destruct (X6_process_input_drains_events env_quit 0 closing)
    as (s' & Hr & Hquit & _).
  - intros k _. reflexivity.
  - destruct (Hquit eq_refl core_playing) as (o' & Ho & Hrun & _).
    + vm_compute. reflexivity.
    + exists s', o'. split; [exact Hr|]. split; [exact Ho | exact Hrun].
Defined.

Lemma X7_stop_before_first_statement_is_lost_witness :
  exists o',
    heap (step_thread env_play 0 (on_ui EmulatorGUI.stop_emulation started)) !! 0
    = Some o' /\
    running o' = true.
Proof.
  destruct (X7_stop_before_first_statement_is_lost env_play started 0 0 core_loaded)
    as (_ & (o' & Ho & Hrun & _) & _).
  - vm_compute. reflexivity.
  - vm_compute. reflexivity.
  - vm_compute. reflexivity.
  - exists o'. split; [exact Ho | exact Hrun].
Defined.

Lemma X8_stop_ends_loop_at_next_test_witness :
  exists r,
    threads (exec env_play [Step 0; Step 0]
               (on_ui EmulatorGUI.stop_emulation video_up)) !! 0
    = Some {| t_core := 0; t_pc := Returned r |}.
Proof.
  refine (proj1 (X8_stop_ends_loop_at_next_test env_play video_up 0 0
                   core_playing _ _ _)); vm_compute; reflexivity.
Defined.

Lemma X9_load_puts_running_core_out_of_reach_witness :
  heap (on_ui EmulatorGUI.stop_emulation
          (on_ui (EmulatorGUI.load_rom env_play rom_path) video_up)) !! 0
  = heap video_up !! 0.
Proof.
  refine (proj2 (proj2 (X9_load_puts_running_core_out_of_reach env_play video_up
                          rom_path _)) 0 _).
  - discriminate.
  - vm_compute. lia.
Defined.

Lemma X10_failed_init_is_reported_witness :
  running <$> heap loaded !! 0 = Some false /\
  exists r s' o',
    EmulatorCore.run env_no_video 4 0 loaded = Some (r, s') /\
    queue s' = queue loaded
      ++ [("error", "SDL initialization failed: No available video device")] /\
    heap s' !! 0 = Some o' /\ running o' = true.
Proof.
  split; [vm_compute; reflexivity|].
  destruct (X10_failed_init_is_reported env_no_video 0 loaded)
    as (r & s' & Hr & Hq & Hcore & _).
  - intros k _. reflexivity.
  - discriminate.
  - destruct (Hcore core_loaded) as (o' & Ho & Hrun & _).
    + vm_compute. reflexivity.
    + exists r, s', o'. split; [exact Hr|]. split; [exact Hq|].
      split; [exact Ho | exact Hrun].
Defined.

Lemma X11_window_close_ends_run_witness :
  exists s',
    EmulatorCore.run_from env_quit 5 0 AtProcessInput closing = Some (None, s') /\
    heap s' = alter (set_running false) 0 (heap closing).
Proof.
  destruct (X11_window_close_ends_run env_quit 0 closing core_playing)
    as (s' & Hr & Hh & _).
  - vm_compute. reflexivity.
  - vm_compute. reflexivity.
  - intros k _. reflexivity.
  - exists s'. split; [exact Hr | exact Hh].
Defined.

Lemma X12_run_goes_on_until_stopped_witness :
  EmulatorCore.run env_play 50 0 loaded = None.
Proof.
  refine (X12_run_goes_on_until_stopped env_play 0 loaded core_loaded _ _ _ _ 50).
  - vm_compute. reflexivity.
  - reflexivity.
  - intros t. reflexivity.
  - intros t. reflexivity.
Defined.

Lemma X13_successful_load_arms_start_witness :
  active_rom (on_ui (EmulatorGUI.load_rom env_play rom_path) boot) = Some rom_bytes.
Proof.
  refine (proj1 (proj2 (proj2 (X13_successful_load_arms_start env_play boot
                                 rom_path rom_bytes _ _)))).
  - discriminate.
  - vm_compute. reflexivity.
Defined.

Lemma C1_run_calls_shutdown_exactly_once_witness :
  count is_shutdown
    (by_actor (Worker 0)
       (trace (exec env_quit ([ClickLoad rom_path; ClickStart] ++ steps 0 16) boot)))
  = 1 /\
  (exists r s',
     EmulatorCore.run_from env_fault 3 0 AtRenderFrame faulting = Some (r, s') /\
     queue s' = queue faulting ++ [("error", "access violation")]) /\
  (exists r s',
     EmulatorCore.run env_no_video 4 0 loaded = Some (r, s') /\
     queue s' = queue loaded
       ++ [("error", "SDL initialization failed: No available video device")]) /\
  (exists r s',
     EmulatorCore.run_from env_play 2 0 AtLoopTest loaded = Some (r, s') /\
     queue s' = queue loaded).
Proof.
  split; [|split; [|split]].
  - refine (proj1 (proj1 (C1_run_calls_shutdown_exactly_once env_quit)
              ([ClickLoad rom_path; ClickStart] ++ steps 0 16) 0
              {| t_core := 0; t_pc := Returned None |} None _ _)).
    + vm_compute. reflexivity.
    + reflexivity.
  - destruct (proj1 (proj2 (C1_run_calls_shutdown_exactly_once env_fault))
                0 AtRenderFrame (EmulatorCore.render_frame env_fault 0) faulting
                (ForeignError "access violation")
                (snd (EmulatorCore.render_frame env_fault 0 faulting)))
      as (r & s' & Hr & Hq & _).
    + reflexivity.
    + vm_compute. reflexivity.
    + exists r, s'. split; [exact Hr|]. revert Hq. vm_compute. intros Hq. exact Hq.
  - destruct (proj1 (proj2 (proj2 (proj2 (proj2 (proj2 (proj2
                (C1_run_calls_shutdown_exactly_once env_no_video)))))))
                0 loaded)
      as (r & s' & Hr & Hq & _).
    + intros k _. reflexivity.
    + discriminate.
    + exists r, s'. split; [exact Hr | exact Hq].
  - destruct (proj2 (proj2 (proj2 (proj2 (proj2 (proj2 (proj2
                (C1_run_calls_shutdown_exactly_once env_play)))))))
                0 core_loaded loaded)
      as (r & s' & Hr & Hq & _).
    + vm_compute. reflexivity.
    + reflexivity.
    + exists r, s'. split; [exact Hr | exact Hq].
Defined.
